(** * Hive: credential preflight and retry-driven graph execution

    Shallow embedding of
    - [core/framework/credentials/validation.py]
      ([ensure_credential_key_env], [validate_agent_credentials]), and
    - the node implementations of [core/tests/test_executor_max_retries.py]
      ([FlakyTestNode], [AlwaysFailsNode]) together with the graph executor
      whose contract those tests exercise.

    Python dictionaries used as maps are [gmap]s; dictionaries whose
    iteration order is observable are association lists in insertion order;
    printing is a list of emitted lines; raising is an explicit result. *)

From Stdlib Require Import String Ascii List Arith Lia DecimalString.
From Stdlib Require Import Sorted.
From Stdlib Require OrderedTypeEx.
From stdpp Require Import base option list strings gmap.

Local Open Scope string_scope.
Local Open Scope list_scope.

(** ** Python helpers *)

Module Py.

(** Truthiness of a [str]: only the empty string is falsy. *)
Definition truthy (s : string) : bool :=
  match s with
  | EmptyString => false
  | String _ _ => true
  end.

(** Truthiness of [d.get(k)]: [None] and the empty string are falsy. *)
Definition truthy_opt (o : option string) : bool :=
  match o with
  | Some s => truthy s
  | None => false
  end.

(** [a or b] on strings. *)
Definition or_else (a b : string) : string := if truthy a then a else b.

(** [str(n)] / [f"{n}"] for a non-negative integer. *)
Definition str_of_nat (n : nat) : string :=
  NilEmpty.string_of_uint (Nat.to_uint n).

(** [sep.join(parts)]. *)
Fixpoint join (sep : string) (parts : list string) : string :=
  match parts with
  | [] => ""
  | [p] => p
  | p :: rest => p +:+ sep +:+ join sep rest
  end.

(** [s * n]. *)
Fixpoint repeat_str (s : string) (n : nat) : string :=
  match n with
  | O => ""
  | S k => s +:+ repeat_str s k
  end.

(** [x in xs] for a collection of strings. *)
Definition mem (x : string) (xs : list string) : bool :=
  existsb (String.eqb x) xs.

(** Insertion of [x] in a strictly increasing list, keeping it strictly
    increasing: the element is dropped when it is already there. *)
Fixpoint insert_sorted (x : string) (l : list string) : list string :=
  match l with
  | [] => [x]
  | y :: t =>
      match String.compare x y with
      | Lt => x :: y :: t
      | Eq => y :: t
      | Gt => y :: insert_sorted x t
      end
  end.

(** [sorted(set(xs))]: a Python set is represented by any list of its
    elements; [sorted] orders strings by code point, which on UTF-8 text
    is the byte order of [String.compare]. *)
Definition sorted_set (xs : list string) : list string :=
  fold_right insert_sorted [] xs.

(** [x < y] on strings. *)
Definition str_lt (x y : string) : Prop := String.compare x y = Lt.

(** [needle in hay] on strings. *)
Fixpoint contains (needle hay : string) : bool :=
  String.prefix needle hay ||
  match hay with
  | EmptyString => false
  | String _ rest => contains needle rest
  end.

End Py.

(** ** [ensure_credential_key_env] *)

Module Bootstrap.

Definition HIVE_CREDENTIAL_KEY : string := "HIVE_CREDENTIAL_KEY".

(** A Python return value, as far as this function can produce one. *)
Inductive pyvalue : Type :=
| PyNone
| PyBool (b : bool).

(** The optional helper [aden_tools.credentials.shell_config.
    check_env_var_in_shell_config]: [None] when the import raises
    [ImportError], otherwise the function from a variable name to the pair
    [(found, value)] read from the user's shell configuration. *)
Definition shell_config : Type := option (string → bool * option string).

(** The function, as a transformer of the process environment [os.environ],
    a map from variable names to values; the result
    pairs the returned Python value with the environment afterwards. *)
Definition ensure_credential_key_env
    (shell : shell_config) (env : gmap string string)
    : pyvalue * gmap string string :=
  if Py.truthy_opt (env !! HIVE_CREDENTIAL_KEY) then (PyNone, env)
  else
    match shell with
    | None => (PyNone, env)
    | Some check_env_var_in_shell_config =>
        let '(found, value) := check_env_var_in_shell_config HIVE_CREDENTIAL_KEY in
        if found && Py.truthy_opt value then
          match value with
          | Some v => (PyNone, <[HIVE_CREDENTIAL_KEY := v]> env)
          | None => (PyNone, env)
          end
        else (PyNone, env)
    end.

(** Whether a call loads the key from the shell configuration: the
    assignment on line 35 of the source is reached. *)
Definition freshly_loaded
    (shell : shell_config) (env : gmap string string) : bool :=
  negb (Py.truthy_opt (env !! HIVE_CREDENTIAL_KEY)) &&
  match shell with
  | None => false
  | Some check =>
      let '(found, value) := check HIVE_CREDENTIAL_KEY in
      found && Py.truthy_opt value
  end.

(** The shell configuration supplies the key: the helper can be imported,
    it finds the variable, and the value it read is not empty. *)
Definition shell_supplies (shell : shell_config) : bool :=
  match shell with
  | None => false
  | Some check_env_var_in_shell_config =>
      let '(found, value) := check_env_var_in_shell_config HIVE_CREDENTIAL_KEY in
      found && Py.truthy_opt value
  end.

(** The shell configuration of a user who ran the credential setup. *)
Definition shell_with_key : shell_config :=
  Some (λ _, (true, Some "s3cr3t")).

End Bootstrap.

(** ** Node declarations *)

(** Modelled from the spec: the declaration of [NodeSpec]
    ([framework/graph/node.py]) is not part of the sources at hand; the
    fields are those of the specification's data model, and the tests
    construct it with the same keywords.  [max_retries] is an integer
    [>= 0], the number of additional attempts after the first. *)
Record NodeSpec : Type := {
  id : string;
  name : string;
  node_type : string;
  tools : list string;
  max_retries : nat;
  input_keys : list string;
  output_keys : list string
}.

(** Modelled from the spec: the constructor call [NodeSpec(...)], where
    [max_retries] may be left out and then defaults to 3. *)
Definition DEFAULT_MAX_RETRIES : nat := 3.

Definition NodeSpec_new (id name node_type : string) (tools : list string)
    (max_retries : option nat) (input_keys output_keys : list string)
    : NodeSpec :=
  {| id := id; name := name; node_type := node_type; tools := tools;
     max_retries := default DEFAULT_MAX_RETRIES max_retries;
     input_keys := input_keys; output_keys := output_keys |}.

(** ** [validate_agent_credentials] *)

Module Credentials.

(** An entry of [aden_tools.credentials.CREDENTIAL_SPECS], with the
    attributes the function reads.  [credential_id] and [help_url] are
    tested for truthiness only, so an absent value is the empty string. *)
Record CredentialSpec : Type := {
  env_var : string;
  spec_tools : list string;
  spec_node_types : list string;
  credential_id : string;
  help_url : string
}.

(** [_CredentialCheck]: result of checking a single credential. *)
Record _CredentialCheck : Type := {
  c_env_var : string;
  c_source : string;
  c_used_by : string;
  c_available : bool;
  c_help_url : string
}.

(** What a call can raise. *)
Inductive exn : Type :=
| CredentialError (msg : string)
| KeyError (key : string).

(** What a call does: the arguments of its [print] calls in order, and the
    exception it ends with, if any. *)
Record outcome : Type := {
  stdout : list string;
  raised : option exn
}.

(** The three non-ASCII literals of the summary, byte for byte as the
    source file holds them (and as a UTF-8 terminal receives them): the
    heading's literal is U+00F0 U+0178 U+201C U+2039, the status of an
    available credential U+00E2 U+0153 U+201C, and the status of a missing
    one U+00E2 U+0153 U+2014. *)
Definition byte_str (codes : list nat) : string :=
  string_of_list_ascii (map ascii_of_nat codes).

Definition CLIPBOARD : string :=
  byte_str [195; 176; 197; 184; 226; 128; 156; 226; 128; 185].
Definition CHECK_MARK : string := byte_str [195; 162; 197; 147; 226; 128; 156].
Definition BALLOT_X : string := byte_str [195; 162; 197; 147; 226; 128; 148].

Definition NL : string := String (ascii_of_nat 10) "".

Section Preflight.

(** [os.environ] at the time of the call. *)
Variable environ : gmap string string.

(** [EncryptedFileStorage().exists]: which credential ids the encrypted
    file store holds. *)
Variable EncryptedFileStorage_exists : string → bool.

(** [EnvVarStorage(env_mapping=...).exists], as a function of the mapping
    it is built with. *)
Variable EnvVarStorage_exists : gmap string string → string → bool.

(** [CREDENTIAL_SPECS.items()], in the dictionary's order. *)
Variable CREDENTIAL_SPECS : list (string * CredentialSpec).

(** [CREDENTIAL_SPECS[cred_name]]; [None] stands for [KeyError]. *)
Fixpoint specs_getitem (items : list (string * CredentialSpec))
    (cred_name : string) : option CredentialSpec :=
  match items with
  | [] => None
  | (n, spec) :: rest =>
      if String.eqb n cred_name then Some spec else specs_getitem rest cred_name
  end.

(** A dictionary comprehension [{k: v for ...}]: the pairs are assigned in
    order, a later one replacing an earlier one with the same key. *)
Definition dict_of (pairs : list (string * string)) : gmap string string :=
  foldl (λ d kv, <[kv.1 := kv.2]> d) ∅ pairs.

Definition env_mapping : gmap string string :=
  dict_of (map (λ '(name, spec), (Py.or_else (credential_id spec) name, env_var spec))
               CREDENTIAL_SPECS).

(** [encrypted_storage] is built only when [HIVE_CREDENTIAL_KEY] is set to
    a non-empty value; [true] here means it is not [None]. *)
Definition encrypted_storage : bool :=
  Py.truthy_opt (environ !! Bootstrap.HIVE_CREDENTIAL_KEY).

Definition env_storage_exists (cred_id : string) : bool :=
  EnvVarStorage_exists env_mapping cred_id.

(** Modelled from the spec: [CredentialStore(storage).is_available]
    ([framework/credentials]) is not part of the sources at hand.  The
    store consults its backing stores in priority order, the encrypted
    store first when there is one, then the environment variables, and a
    credential is available when one of them has it. *)
Definition store_is_available (cred_id : string) : bool :=
  (encrypted_storage && EncryptedFileStorage_exists cred_id)
  || env_storage_exists cred_id.

Definition tool_to_cred : gmap string string :=
  dict_of (flat_map (λ '(name, spec), map (λ tool, (tool, name)) (spec_tools spec))
                    CREDENTIAL_SPECS).

Definition node_type_to_cred : gmap string string :=
  dict_of (flat_map (λ '(name, spec), map (λ nt, (nt, name)) (spec_node_types spec))
                    CREDENTIAL_SPECS).

Definition get_source (cred_id : string) : string :=
  if encrypted_storage && EncryptedFileStorage_exists cred_id then "encrypted store"
  else if env_storage_exists cred_id then "environment variable"
  else "not found".

(** [check_credential], after its lookup [spec = CREDENTIAL_SPECS[cred_name]]. *)
Definition check_credential_with (cred_name : string) (spec : CredentialSpec)
    (used_by : string) : _CredentialCheck :=
  let cred_id := Py.or_else (credential_id spec) cred_name in
  {| c_env_var := env_var spec;
     c_source := get_source cred_id;
     c_used_by := used_by;
     c_available := store_is_available cred_id;
     c_help_url := help_url spec |}.

Definition check_credential (cred_name used_by : string)
    : exn + _CredentialCheck :=
  match specs_getitem CREDENTIAL_SPECS cred_name with
  | Some spec => inr (check_credential_with cred_name spec used_by)
  | None => inl (KeyError cred_name)
  end.

(** The state of the two deduplicating loops: [checks] and [checked]. *)
Definition scan_state : Type := list _CredentialCheck * gset string.

(** One iteration of either loop.  [to_cred] is the reverse mapping, [pool]
    the set the loop ranges over, [members] the attribute of the spec that
    [affected] filters by, and [label] what is made of [affected]. *)
Definition scan_step (to_cred : gmap string string) (pool : list string)
    (members : CredentialSpec → list string) (label : string → string)
    (key : string) (st : scan_state) : exn + scan_state :=
  let '(checks, checked) := st in
  match to_cred !! key with
  | Some cred_name =>
      if Py.truthy cred_name && negb (bool_decide (cred_name ∈ checked)) then
        match specs_getitem CREDENTIAL_SPECS cred_name with
        | Some spec =>
            let affected :=
              Py.join ", " (Py.sorted_set (filter (λ t, Py.mem t (members spec) = true) pool)) in
            match check_credential cred_name (label affected) with
            | inr c => inr (checks ++ [c], {[cred_name]} ∪ checked)
            | inl e => inl e
            end
        | None => inl (KeyError cred_name)
        end
      else inr st
  | None => inr st
  end.

Fixpoint scan (to_cred : gmap string string) (pool : list string)
    (members : CredentialSpec → list string) (label : string → string)
    (keys : list string) (st : scan_state) : exn + scan_state :=
  match keys with
  | [] => inr st
  | key :: rest =>
      match scan_step to_cred pool members label key st with
      | inr st' => scan to_cred pool members label rest st'
      | inl e => inl e
      end
  end.

Definition required_tools (nodes : list NodeSpec) : list string :=
  flat_map tools nodes.

Definition node_types (nodes : list NodeSpec) : list string :=
  map node_type nodes.

(** "Check all credentials (deduplicated)". *)
Definition collect_checks (nodes : list NodeSpec) : exn + list _CredentialCheck :=
  let rt := required_tools nodes in
  let nts := node_types nodes in
  match scan tool_to_cred rt spec_tools (λ a, a) (Py.sorted_set rt) ([], ∅) with
  | inl e => inl e
  | inr st =>
      match scan node_type_to_cred nts spec_node_types (λ a, a +:+ " nodes")
                 (Py.sorted_set nts) st with
      | inl e => inl e
      | inr (checks, _) => inr checks
      end
  end.

(** "Print summary". *)
Definition summary_entry (c : _CredentialCheck) : list string :=
  let status := if c_available c then CHECK_MARK else BALLOT_X in
  let label := if c_available c then "Source" else "Required by" in
  let value := if c_available c then c_source c else c_used_by c in
  let suffix := if c_available c then "" else " (MISSING)" in
  ["  " +:+ status +:+ " " +:+ c_env_var c +:+ suffix;
   "      " +:+ label +:+ ": " +:+ value]
  ++ (if c_available c then ["      Used by: " +:+ c_used_by c] else []).

Definition summary (quiet : bool) (checks : list _CredentialCheck) : list string :=
  match checks with
  | [] => []
  | _ :: _ =>
      if quiet then []
      else [NL +:+ CLIPBOARD +:+ " Credential Status:"; Py.repeat_str "-" 60]
           ++ flat_map summary_entry checks
           ++ [Py.repeat_str "-" 60]
  end.

(** "Raise error if any missing". *)
Definition missing_of (checks : list _CredentialCheck) : list _CredentialCheck :=
  filter (λ c, c_available c = false) checks.

Definition missing_entry (c : _CredentialCheck) : list string :=
  ["  " +:+ c_env_var c +:+ " for " +:+ c_used_by c]
  ++ (if Py.truthy (c_help_url c) then ["    Get it at: " +:+ c_help_url c] else []).

Definition error_lines (missing : list _CredentialCheck) : list string :=
  ["Missing required credentials:" +:+ NL]
  ++ flat_map missing_entry missing
  ++ [NL +:+ "To fix: run /hive-credentials in Claude Code."
      +:+ NL +:+ "If you've already set up credentials, restart your terminal to load them."].

(** The body of the function once the imports of its [try] block have
    succeeded. *)
Definition validate_agent_credentials_body
    (nodes : list NodeSpec) (quiet : bool) : outcome :=
  match collect_checks nodes with
  | inl e => {| stdout := []; raised := Some e |}
  | inr checks =>
      let out := summary quiet checks in
      match missing_of checks with
      | [] => {| stdout := out; raised := None |}
      | missing =>
          {| stdout := out;
             raised := Some (CredentialError (Py.join NL (error_lines missing))) |}
      end
  end.

(** The credential identifier a specification entry is stored under. *)
Definition cred_id_of (cred_name : string) (spec : CredentialSpec) : string :=
  Py.or_else (credential_id spec) cred_name.

(** A credential is required by a node list when the reverse mapping sends
    one of the nodes' tools, or one of their node types, to its name; the
    loops pass over a name that is falsy, the empty string. *)
Definition required (nodes : list NodeSpec) (cred_name : string) : Prop :=
  Py.truthy cred_name = true ∧
  ((∃ tool, tool ∈ required_tools nodes ∧ tool_to_cred !! tool = Some cred_name)
   ∨ (∃ nt, nt ∈ node_types nodes ∧ node_type_to_cred !! nt = Some cred_name)).

(** No backing store of the preflight has the credential. *)
Definition unavailable_everywhere (cred_id : string) : Prop :=
  (encrypted_storage = true → EncryptedFileStorage_exists cred_id = false)
  ∧ env_storage_exists cred_id = false.

End Preflight.

(** The function.  [aden_tools] is the companion library: [None] when an
    import of the [try] block raises [ImportError], in which case the
    function returns at once, and otherwise its [CREDENTIAL_SPECS]. *)
Definition validate_agent_credentials (environ : gmap string string)
    (EncryptedFileStorage_exists : string → bool)
    (EnvVarStorage_exists : gmap string string → string → bool)
    (aden_tools : option (list (string * CredentialSpec)))
    (nodes : list NodeSpec) (quiet : bool) : outcome :=
  match aden_tools with
  | None => {| stdout := []; raised := None |}
  | Some CREDENTIAL_SPECS =>
      validate_agent_credentials_body environ EncryptedFileStorage_exists
        EnvVarStorage_exists CREDENTIAL_SPECS nodes quiet
  end.

(** Every name a reverse mapping yields is a key of [CREDENTIAL_SPECS]. *)
Definition resolves (specs : list (string * CredentialSpec))
    (to_cred : gmap string string) : Prop :=
  ∀ k cred_name, to_cred !! k = Some cred_name →
                 is_Some (specs_getitem specs cred_name).

(** A required credential of the node list that no backing store has.
    Which credentials are required is read off the library's table, so
    there is none to name when the library is absent. *)
Definition missing_credential (environ : gmap string string)
    (EncryptedFileStorage_exists : string → bool)
    (EnvVarStorage_exists : gmap string string → string → bool)
    (aden_tools : option (list (string * CredentialSpec)))
    (nodes : list NodeSpec) (cred_name : string) (spec : CredentialSpec) : Prop :=
  ∃ specs, aden_tools = Some specs
           ∧ required specs nodes cred_name
           ∧ specs_getitem specs cred_name = Some spec
           ∧ unavailable_everywhere environ EncryptedFileStorage_exists
               EnvVarStorage_exists specs (cred_id_of cred_name spec).






(** A table of two credentials and a node list that needs both. *)
Definition example_specs : list (string * CredentialSpec) :=
  [("brave_search",
    {| env_var := "BRAVE_SEARCH_API_KEY"; spec_tools := ["web_search"; "news_search"];
       spec_node_types := []; credential_id := "";
       help_url := "https://brave.com/search/api/" |});
   ("anthropic",
    {| env_var := "ANTHROPIC_API_KEY"; spec_tools := [];
       spec_node_types := ["llm_generate"; "llm_tool_use"];
       credential_id := "anthropic_key"; help_url := "" |})].

Definition example_nodes : list NodeSpec :=
  [NodeSpec_new "search" "Search" "llm_tool_use" ["web_search"] None [] ["hits"];
   NodeSpec_new "report" "Report" "function" [] None ["hits"] ["report"]].



(** An environment-variable store that has exactly the credentials of the
    given identifiers. *)
Definition env_store_with (present : list string)
    (env_mapping : gmap string string) (cred_id : string) : bool :=
  Py.mem cred_id present.

(** [sorted(t for t in pool if t in members)], the list that [affected]
    joins. *)
Definition affected_list (pool members : list string) : list string :=
  Py.sorted_set (filter (λ t, Py.mem t members = true) pool).

Section Checks.

Variable environ : gmap string string.
Variable EncryptedFileStorage_exists : string → bool.
Variable EnvVarStorage_exists : gmap string string → string → bool.
Variable CREDENTIAL_SPECS : list (string * CredentialSpec).

(** The check that a loop over [pool] appends for a credential name. *)
Definition loop_check (pool : list string)
    (members : CredentialSpec → list string) (label : string → string)
    (cred_name : string) : option _CredentialCheck :=
  match specs_getitem CREDENTIAL_SPECS cred_name with
  | Some spec =>
      Some (check_credential_with environ EncryptedFileStorage_exists
              EnvVarStorage_exists CREDENTIAL_SPECS cred_name spec
              (label (Py.join ", " (affected_list pool (members spec)))))
  | None => None
  end.

(** Some tool of the node list maps to the credential. *)
Definition required_by_tool (nodes : list NodeSpec) (cred_name : string) : bool :=
  existsb (λ tool, bool_decide (tool_to_cred CREDENTIAL_SPECS !! tool = Some cred_name))
          (required_tools nodes).

(** What a credential is reported to be used by: the tools that need it,
    or, when no tool does, the node types that need it. *)
Definition used_by_of (nodes : list NodeSpec) (cred_name : string)
    (spec : CredentialSpec) : string :=
  if required_by_tool nodes cred_name
  then Py.join ", " (affected_list (required_tools nodes) (spec_tools spec))
  else Py.join ", " (affected_list (node_types nodes) (spec_node_types spec))
       +:+ " nodes".

(** The check of a credential name for a node list. *)
Definition expected_check (nodes : list NodeSpec) (cred_name : string)
    : option _CredentialCheck :=
  match specs_getitem CREDENTIAL_SPECS cred_name with
  | Some spec =>
      Some (check_credential_with environ EncryptedFileStorage_exists
              EnvVarStorage_exists CREDENTIAL_SPECS cred_name spec
              (used_by_of nodes cred_name spec))
  | None => None
  end.

End Checks.

End Credentials.

(** ** The graph executor *)

Module Executor.

(** Modelled from the spec: [framework/graph/executor.py], [node.py],
    [edge.py] and [goal.py] are not part of the sources at hand; only the
    test module that drives them is.  The data types and [execute] below
    follow sections 3 and 4.1 of the specification sentence by sentence.
    Values held in the shared state are strings. *)
Record Goal : Type := {
  goal_id : string;
  goal_name : string;
  goal_description : string
}.

Record NodeContext : Type := {
  ctx_input : gmap string string;
  ctx_node_id : string;
  ctx_attempt : nat;
  ctx_goal : Goal
}.

Inductive NodeResult : Type :=
| NodeSuccess (output : gmap string string)
| NodeFailure (error : string).

Definition result_success (r : NodeResult) : bool :=
  match r with
  | NodeSuccess _ => true
  | NodeFailure _ => false
  end.

Record ExecutionResult : Type := {
  success : bool;
  output : gmap string string;
  error : option string
}.

Record GraphSpec : Type := {
  graph_name : string;
  entry_node : string;
  nodes : list NodeSpec;
  edges : list (string * string);
  terminal_nodes : list string
}.

(** A violation found by graph validation. *)
Inductive violation : Type :=
| EdgeSourceUndeclared (edge : string * string)
| EdgeTargetUndeclared (edge : string * string)
| EntryNodeUndeclared (node_id : string)
| TerminalNodeUndeclared (node_id : string)
| NodeNotRegistered (node_id : string).

(** What the engine does to its collaborators, in order: the calls of the
    run-tracking hooks and the invocations of node implementations. *)
Inductive event : Type :=
| StartRun (goal : Goal)
| SetNode (node_id : string)
| Decide (node_id : string) (attempt : nat)
| Invoke (node_id : string) (attempt : nat) (result : NodeResult)
| RecordOutcome (node_id : string) (attempt : nat) (ok : bool)
| ReportProblem (node_id : string) (problem : string)
| EndRun (ok : bool).

(** How a call of [execute] ends: with a result, or with one of the two
    errors that are signalled rather than returned. *)
Inductive ending : Type :=
| Returned (r : ExecutionResult)
| ConfigurationError (violations : list violation)
| MissingInputError (node_id key : string).

Definition is_invoke_of (node_id : string) (e : event) : bool :=
  match e with
  | Invoke n _ _ => String.eqb n node_id
  | _ => false
  end.

(** Number of invocations of a node's execute operation in a trace. *)
Definition invocations (node_id : string) (trace : list event) : nat :=
  length (filter (λ e, is_invoke_of node_id e = true) trace).

Definition failure_message (spec : NodeSpec) (last_error : string) : string :=
  "failed after " +:+ Py.str_of_nat (max_retries spec) +:+ " attempts: " +:+ last_error.

Definition find_node (graph : GraphSpec) (node_id : string) : option NodeSpec :=
  List.find (λ n, String.eqb (id n) node_id) (nodes graph).

Definition declared (graph : GraphSpec) (node_id : string) : bool :=
  Py.mem node_id (map id (nodes graph)).

(** Modelled from the spec: step 4f of [execute], which is not part of the
    sources at hand.  The edge taken is the first declared edge out of the
    node, if any. *)
Definition next_node (graph : GraphSpec) (node_id : string) : option string :=
  snd <$> List.find (λ e, String.eqb (fst e) node_id) (edges graph).

(** Modelled from the spec: step 4b of [execute].  The input snapshot is
    the shared state restricted to [input_keys]; [inl key] when a key is
    missing. *)
Fixpoint build_input (keys : list string) (shared : gmap string string)
    : string + gmap string string :=
  match keys with
  | [] => inr ∅
  | k :: rest =>
      match shared !! k with
      | None => inl k
      | Some v =>
          match build_input rest shared with
          | inl k' => inl k'
          | inr m => inr (<[k := v]> m)
          end
      end
  end.

(** Modelled from the spec: step 4c of [execute], the merge of a
    successful attempt's output under the declared [output_keys]. *)
Definition merge_output (keys : list string) (out shared : gmap string string)
    : gmap string string :=
  foldl (λ st k, match out !! k with
                 | Some v => <[k := v]> st
                 | None => st
                 end) shared keys.

Section Engine.

(** The type of the private state of node implementations. *)
Context {S : Type}.

(** Modelled from the spec: [NodeProtocol] ([framework/graph/node.py]) is
    not part of the sources at hand.  A node capability instance is an
    object with private state and the one operation "execute a single
    attempt given a context". *)
Record NodeProtocol : Type := {
  self : S;
  execute_attempt : S → NodeContext → NodeResult * S
}.

Definition invoke (impl : NodeProtocol) (ctx : NodeContext)
    : NodeResult * NodeProtocol :=
  let (r, s') := execute_attempt impl (self impl) ctx in
  (r, {| self := s'; execute_attempt := execute_attempt impl |}).

(** Modelled from the spec: [register(node_id, implementation)], which the
    tests call as [executor.register_node]. *)
Definition register_node (registry : gmap string NodeProtocol)
    (node_id : string) (impl : NodeProtocol) : gmap string NodeProtocol :=
  <[node_id := impl]> registry.

(** Modelled from the spec: step 1 of [execute], the validation of the
    graph, which is not part of the sources at hand.  All violations are
    collected, none is left out. *)
Definition validate_graph (registry : gmap string NodeProtocol)
    (graph : GraphSpec) : list violation :=
  flat_map (λ e, (if declared graph (fst e) then [] else [EdgeSourceUndeclared e])
                 ++ (if declared graph (snd e) then [] else [EdgeTargetUndeclared e]))
           (edges graph)
  ++ (if declared graph (entry_node graph) then []
      else [EntryNodeUndeclared (entry_node graph)])
  ++ flat_map (λ t, if declared graph t then [] else [TerminalNodeUndeclared t])
              (terminal_nodes graph)
  ++ flat_map (λ n, match registry !! id n with
                    | Some _ => []
                    | None => [NodeNotRegistered (id n)]
                    end)
              (nodes graph).

Definition attempt_context (spec : NodeSpec) (input : gmap string string)
    (goal : Goal) (attempt : nat) : NodeContext :=
  {| ctx_input := input; ctx_node_id := id spec;
     ctx_attempt := attempt; ctx_goal := goal |}.

(** Modelled from the spec: step 4c of [execute], the retry loop, which is
    not part of the sources at hand.  [attempt] runs from 1 to
    [limit = max_retries + 1], and [retries_left] is [limit - attempt].
    Each attempt is: pre-attempt notification, attempt execution, outcome
    recording.  The loop is left on the first success, or with the failure
    of the attempt numbered [limit]. *)
Fixpoint retry_loop (spec : NodeSpec) (input : gmap string string) (goal : Goal)
    (retries_left attempt : nat) (impl : NodeProtocol) (trace : list event)
    : NodeResult * NodeProtocol * list event :=
  let (r, impl') := invoke impl (attempt_context spec input goal attempt) in
  let trace' := trace ++ [Decide (id spec) attempt;
                          Invoke (id spec) attempt r;
                          RecordOutcome (id spec) attempt (result_success r)] in
  match r with
  | NodeSuccess _ => (r, impl', trace')
  | NodeFailure _ =>
      match retries_left with
      | O => (r, impl', trace')
      | Datatypes.S k => retry_loop spec input goal k (Datatypes.S attempt) impl' trace'
      end
  end.

(** The engine's state during a run. *)
Record run_state : Type := {
  shared : gmap string string;
  registry : gmap string NodeProtocol;
  trace : list event
}.

(** Modelled from the spec: step 4 of [execute], the traversal loop, which
    is not part of the sources at hand; [fuel] bounds the number of nodes
    visited and [None] means it ran out.  Among several outgoing edges the first
    declared one is taken; when [current] becomes empty the loop is left
    and the run ends as successful. *)
Fixpoint traverse (fuel : nat) (graph : GraphSpec) (goal : Goal)
    (current : option string) (st : run_state) : option (ending * run_state) :=
  match current with
  | None =>
      let st' := {| shared := shared st; registry := registry st;
                    trace := trace st ++ [EndRun true] |} in
      Some (Returned {| success := true; output := shared st; error := None |}, st')
  | Some node_id =>
      match fuel with
      | O => None
      | Datatypes.S fuel' =>
          match find_node graph node_id, registry st !! node_id with
          | Some spec, Some impl =>
              let trace1 := trace st ++ [SetNode node_id] in
              match build_input (input_keys spec) (shared st) with
              | inl key =>
                  Some (MissingInputError node_id key,
                        {| shared := shared st; registry := registry st;
                           trace := trace1 |})
              | inr input =>
                  let '(r, impl', trace2) :=
                    retry_loop spec input goal (max_retries spec) 1 impl trace1 in
                  let registry' := <[node_id := impl']> (registry st) in
                  match r with
                  | NodeFailure last_error =>
                      let msg := failure_message spec last_error in
                      Some (Returned {| success := false; output := shared st;
                                        error := Some msg |},
                            {| shared := shared st; registry := registry';
                               trace := trace2 ++ [ReportProblem node_id msg;
                                                   EndRun false] |})
                  | NodeSuccess out =>
                      let shared' := merge_output (output_keys spec) out (shared st) in
                      match next_node graph node_id with
                      | None =>
                          if Py.mem node_id (terminal_nodes graph) then
                            Some (Returned {| success := true; output := shared';
                                              error := None |},
                                  {| shared := shared'; registry := registry';
                                     trace := trace2 ++ [EndRun true] |})
                          else
                            traverse fuel' graph goal None
                              {| shared := shared'; registry := registry';
                                 trace := trace2 |}
                      | Some target =>
                          traverse fuel' graph goal (Some target)
                            {| shared := shared'; registry := registry';
                               trace := trace2 |}
                      end
                  end
              end
          | _, _ =>
              (* excluded by the validation of step 1 *)
              Some (ConfigurationError [NodeNotRegistered node_id], st)
          end
      end
  end.

(** Modelled from the spec: [GraphExecutor.execute(graph, goal,
    initial_state)] ([framework/graph/executor.py]), which is not part of
    the sources at hand, on an executor whose registered implementations
    are [registry]. *)
Definition execute (fuel : nat) (registry : gmap string NodeProtocol)
    (graph : GraphSpec) (goal : Goal) (initial_state : gmap string string)
    : option (ending * run_state) :=
  match validate_graph registry graph with
  | [] =>
      traverse fuel graph goal (Some (entry_node graph))
        {| shared := initial_state; registry := registry;
           trace := [StartRun goal] |}
  | violations =>
      Some (ConfigurationError violations,
            {| shared := initial_state; registry := registry; trace := [] |})
  end.

(** The implementation after it has served the given contexts in order. *)
Definition after_contexts (impl : NodeProtocol) (ctxs : list NodeContext)
    : NodeProtocol :=
  foldl (λ i ctx, (invoke i ctx).2) impl ctxs.

(** The implementation fails its next [F] attempts, whatever their
    contexts, and succeeds at the one after. *)
Fixpoint fails_then_succeeds (F : nat) (impl : NodeProtocol) : Prop :=
  match F with
  | O => ∀ ctx, result_success (invoke impl ctx).1 = true
  | Datatypes.S k =>
      ∀ ctx, result_success (invoke impl ctx).1 = false
             ∧ fails_then_succeeds k (invoke impl ctx).2
  end.

(** The implementation fails every attempt, now and after any history. *)
Definition always_fails (impl : NodeProtocol) : Prop :=
  ∀ ctxs ctx, result_success (invoke (after_contexts impl ctxs) ctx).1 = false.

(** The contexts of attempts [first], [first + 1], ... ([count] of them) of
    a node on one input snapshot. *)
Definition attempt_contexts (spec : NodeSpec) (input : gmap string string)
    (goal : Goal) (first count : nat) : list NodeContext :=
  map (attempt_context spec input goal) (seq first count).

(** The [NodeResult] of attempt number [n], counted from 1, when the
    attempts before it were made on the same input snapshot. *)
Definition nth_attempt_result (spec : NodeSpec) (input : gmap string string)
    (goal : Goal) (impl : NodeProtocol) (n : nat) : NodeResult :=
  (invoke (after_contexts impl (attempt_contexts spec input goal 1 (n - 1)))
          (attempt_context spec input goal n)).1.

(** What step 1 of [execute] asks of a graph and of the registry. *)
Definition well_wired (registry : gmap string NodeProtocol)
    (graph : GraphSpec) : Prop :=
  (∀ e, e ∈ edges graph →
        declared graph e.1 = true ∧ declared graph e.2 = true)
  ∧ declared graph (entry_node graph) = true
  ∧ (∀ t, t ∈ terminal_nodes graph → declared graph t = true)
  ∧ (∀ n, n ∈ nodes graph → is_Some (registry !! id n)).

(** Every declared input key of a node has a value in the shared state. *)
Definition inputs_available (spec : NodeSpec) (shared : gmap string string)
    : Prop :=
  ∀ k, k ∈ input_keys spec → is_Some (shared !! k).

End Engine.

Arguments NodeProtocol : clear implicits.

End Executor.

(** ** The node implementations of [test_executor_max_retries.py] *)

Module Tests.
Import Executor.

(** [FlakyTestNode]: fails a configurable number of times before
    succeeding. *)
Record FlakyTestNode : Type := {
  fail_times : nat;
  flaky_attempt_count : nat
}.

Definition FlakyTestNode_init (fail_times : option nat) : FlakyTestNode :=
  {| fail_times := default 2 fail_times; flaky_attempt_count := 0 |}.

Definition FlakyTestNode_execute (self : FlakyTestNode) (ctx : NodeContext)
    : NodeResult * FlakyTestNode :=
  let self := {| fail_times := fail_times self;
                 flaky_attempt_count := flaky_attempt_count self + 1 |} in
  if (flaky_attempt_count self <=? fail_times self)%nat then
    (NodeFailure ("Transient error (attempt "
                  +:+ Py.str_of_nat (flaky_attempt_count self) +:+ ")"), self)
  else
    (NodeSuccess {[ "result" := "succeeded after "
                      +:+ Py.str_of_nat (flaky_attempt_count self) +:+ " attempts" ]},
     self).

Definition flaky_node (fail_times : option nat) : NodeProtocol FlakyTestNode :=
  {| self := FlakyTestNode_init fail_times;
     execute_attempt := FlakyTestNode_execute |}.

(** [AlwaysFailsNode]: its only attribute is [attempt_count]. *)
Definition AlwaysFailsNode : Type := nat.

Definition AlwaysFailsNode_init : AlwaysFailsNode := 0.

Definition AlwaysFailsNode_execute (attempt_count : AlwaysFailsNode)
    (ctx : NodeContext) : NodeResult * AlwaysFailsNode :=
  let attempt_count := attempt_count + 1 in
  (NodeFailure ("Permanent error (attempt "
                +:+ Py.str_of_nat attempt_count +:+ ")"), attempt_count).

Definition failing_node : NodeProtocol AlwaysFailsNode :=
  {| self := AlwaysFailsNode_init; execute_attempt := AlwaysFailsNode_execute |}.

(** The results of successive calls of [execute] on one node object, and
    the object after them. *)
Fixpoint serve {S : Type} (execute : S → NodeContext → NodeResult * S)
    (self : S) (ctxs : list NodeContext) : list NodeResult * S :=
  match ctxs with
  | [] => ([], self)
  | ctx :: rest =>
      let (r, self') := execute self ctx in
      let (rs, self'') := serve execute self' rest in
      (r :: rs, self'')
  end.

(** The graph every test builds: one node, which is both the entry node
    and the only terminal node, and no edge. *)
Definition single_node_graph (spec : NodeSpec) : GraphSpec :=
  {| graph_name := "Test Graph"; entry_node := id spec; nodes := [spec];
     edges := []; terminal_nodes := [id spec] |}.

Definition test_goal (description : string) : Goal :=
  {| goal_id := "test_goal"; goal_name := "Test Goal";
     goal_description := description |}.

(** [executor.register_node(spec.id, impl)] followed by
    [executor.execute(graph, goal, initial_state)] on the one-node graph. *)
Definition run_single {S : Type} (fuel : nat) (spec : NodeSpec)
    (impl : NodeProtocol S) (goal : Goal) (initial_state : gmap string string)
    : option (ending * run_state) :=
  execute fuel (register_node ∅ (id spec) impl) (single_node_graph spec)
          goal initial_state.

(** The specifications of the first three tests. *)
Definition flaky_spec : NodeSpec :=
  NodeSpec_new "flaky_node" "Flaky Node" "function" [] (Some 10) [] ["result"].

Definition fragile_spec : NodeSpec :=
  NodeSpec_new "fragile_node" "Fragile Node" "function" [] (Some 2) [] ["result"].

Definition default_spec : NodeSpec :=
  NodeSpec_new "default_node" "Default Node" "function" [] None [] ["result"].

(** The specification of the fourth test. *)
Definition one_retry_spec : NodeSpec :=
  NodeSpec_new "one_retry_node" "One Retry Node" "function" [] (Some 1) []
    ["result"].

(** The two specifications of the last test, wired into a graph: the
    second node reads what the first one writes. *)
Definition node1_spec : NodeSpec :=
  NodeSpec_new "node1" "Node 1" "function" [] (Some 2) [] ["result1"].

Definition node2_spec : NodeSpec :=
  NodeSpec_new "node2" "Node 2" "function" [] (Some 5) ["result1"] ["result2"].

Definition two_node_graph : GraphSpec :=
  {| graph_name := "Test Graph"; entry_node := "node1";
     nodes := [node1_spec; node2_spec];
     edges := [("node1", "node2")];
     terminal_nodes := ["node2"] |}.

(** A node that writes a fixed key after a number of failed attempts. *)
Definition writer_node (key : string) (fail_times : nat)
    : NodeProtocol FlakyTestNode :=
  {| self := FlakyTestNode_init (Some fail_times);
     execute_attempt := λ self ctx,
       match FlakyTestNode_execute self ctx with
       | (NodeSuccess out, self') =>
           (NodeSuccess {[ key := default "" (out !! "result") ]}, self')
       | failed => failed
       end |}.

(** A graph with a dangling edge, a dangling terminal node and a declared
    node that nobody registered. *)
Definition broken_graph : GraphSpec :=
  {| graph_name := "Broken"; entry_node := "fragile_node";
     nodes := [fragile_spec; default_spec];
     edges := [("fragile_node", "nowhere")];
     terminal_nodes := ["default_node"; "gone"] |}.

End Tests.

(** * Properties *)

(** ** The secret bootstrap *)

Module BootstrapFacts.
Import Bootstrap.

Lemma ensure_returns_none shell env :
  (ensure_credential_key_env shell env).1 = PyNone.
Proof.
  unfold ensure_credential_key_env.
  destruct (Py.truthy_opt (env !! HIVE_CREDENTIAL_KEY)); [done|].
  destruct shell as [check|]; [|done].
  destruct (check HIVE_CREDENTIAL_KEY) as [found [v|]];
    destruct found; simpl; try done; by destruct (Py.truthy v).
Qed.

(** Either nothing changes, or the key was falsy and is now set to a
    non-empty value read from the shell configuration. *)
Lemma ensure_env_cases shell env :
  let env' := (ensure_credential_key_env shell env).2 in
  (env' = env ∧ freshly_loaded shell env = false)
  ∨ (∃ v, env' = <[HIVE_CREDENTIAL_KEY := v]> env ∧ Py.truthy v = true
          ∧ Py.truthy_opt (env !! HIVE_CREDENTIAL_KEY) = false
          ∧ freshly_loaded shell env = true).
Proof.
  unfold ensure_credential_key_env, freshly_loaded.
  destruct (Py.truthy_opt (env !! HIVE_CREDENTIAL_KEY)) eqn:Hk; simpl; [by left|].
  destruct shell as [check|]; [|by left].
  destruct (check HIVE_CREDENTIAL_KEY) as [found [v|]]; destruct found; simpl;
    try (by left).
  destruct (Py.truthy v) eqn:Hv; [|by left].
  right. by exists v.
Qed.

Lemma ensure_keeps_truthy_key shell env :
  Py.truthy_opt (env !! HIVE_CREDENTIAL_KEY) = true →
  (ensure_credential_key_env shell env).2 = env.
Proof. intros H. unfold ensure_credential_key_env. by rewrite H. Qed.

(** C8, as amended.  The bootstrap function is idempotent, it changes no
    environment variable other than HIVE_CREDENTIAL_KEY, and it leaves the
    environment unchanged whenever that key is already set to a non-empty
    value. *)
Theorem ensure_credential_key_env_frame
    (shell : shell_config) (env : gmap string string) :
  let env' := (ensure_credential_key_env shell env).2 in
  (ensure_credential_key_env shell env').2 = env'
  ∧ (∀ k, k ≠ HIVE_CREDENTIAL_KEY → env' !! k = env !! k)
  ∧ (Py.truthy_opt (env !! HIVE_CREDENTIAL_KEY) = true → env' = env).
Proof.
  intros env'. split; [|split].
  - destruct (ensure_env_cases shell env) as [[He _]|(v & He & Hv & _)];
      fold env' in He.
    + rewrite He. exact He.
    + apply ensure_keeps_truthy_key. rewrite He, lookup_insert_eq. exact Hv.
  - intros k Hk.
    destruct (ensure_env_cases shell env) as [[He _]|(v & He & _)];
      fold env' in He; rewrite He; [done|].
    by rewrite lookup_insert_ne.
  - apply ensure_keeps_truthy_key.
Qed.

Lemma ensure_credential_key_env_frame_witness :
  let env : gmap string string :=
    {[ HIVE_CREDENTIAL_KEY := "abc"; "PATH" := "/usr/bin" ]} in
  let env' := (ensure_credential_key_env shell_with_key env).2 in
  env' !! "PATH" = env !! "PATH" ∧ env' = env.
Proof.
  intros env env'.
  destruct (ensure_credential_key_env_frame shell_with_key env) as (_ & Hf & Hk).
  split.
  - apply Hf. discriminate.
  - apply Hk. reflexivity.
Defined.

(** C8, counterexample.  With HIVE_CREDENTIAL_KEY present in the
    environment but empty, the call replaces it by the value found in the
    shell configuration: the environment does not stay unchanged. *)
Lemma ensure_credential_key_env_overwrites_empty :
  ¬ (∀ (shell : shell_config) (env : gmap string string),
        is_Some (env !! HIVE_CREDENTIAL_KEY) →
        (ensure_credential_key_env shell env).2 = env).
Proof.
  intros H.
  specialize (H shell_with_key {[ HIVE_CREDENTIAL_KEY := "" ]}).
  assert (Hs : is_Some (({[ HIVE_CREDENTIAL_KEY := "" ]} : gmap string string)
                          !! HIVE_CREDENTIAL_KEY)).
  { rewrite lookup_singleton_eq. by eexists. }
  specialize (H Hs).
  apply (f_equal (λ m : gmap string string, m !! HIVE_CREDENTIAL_KEY)) in H.
  vm_compute in H. discriminate.
Qed.

(** C9, as amended.  Every call returns [None]; that the key was freshly
    loaded shows only in the environment: it was loaded by the call exactly
    when HIVE_CREDENTIAL_KEY was unset or empty before and is non-empty
    after. *)
Theorem ensure_credential_key_env_returns_none
    (shell : shell_config) (env : gmap string string) :
  (ensure_credential_key_env shell env).1 = PyNone
  ∧ (freshly_loaded shell env = true
     ↔ Py.truthy_opt (env !! HIVE_CREDENTIAL_KEY) = false
       ∧ Py.truthy_opt ((ensure_credential_key_env shell env).2
                          !! HIVE_CREDENTIAL_KEY) = true).
Proof.
  split; [apply ensure_returns_none|].
  destruct (ensure_env_cases shell env) as [[He Hf]|(v & He & Hv & Hk & Hf)];
    cbv zeta in He; rewrite He, Hf.
  - split; [discriminate|]. intros [H1 H2]. congruence.
  - rewrite lookup_insert_eq. simpl. by rewrite Hv.
Qed.

(** C9, counterexample.  No reading of the returned value tells whether the
    key was freshly loaded: a call that loads it and a call that does not
    return the same value. *)
Lemma ensure_credential_key_env_return_uninformative :
  ¬ (∃ indicates : pyvalue → bool,
        ∀ (shell : shell_config) (env : gmap string string),
          indicates (ensure_credential_key_env shell env).1
          = freshly_loaded shell env).
Proof.
  intros [indicates H].
  pose proof (H shell_with_key ∅) as H1.
  pose proof (H None ∅) as H2.
  rewrite ensure_returns_none in H1, H2.
  vm_compute in H1, H2. congruence.
Qed.

End BootstrapFacts.

(** ** The credential preflight *)

Module CredentialsFacts.
Import Credentials.

(** *** Sorted sets and dictionaries *)

Lemma elem_of_insert_sorted (x y : string) (l : list string) :
  y ∈ Py.insert_sorted x l ↔ y = x ∨ y ∈ l.
Proof.
  induction l as [|z t IH]; simpl.
  - rewrite list_elem_of_singleton, elem_of_nil. tauto.
  - destruct (String.compare x z) eqn:Hc.
    + apply String.compare_eq_iff in Hc. subst z.
      rewrite elem_of_cons. tauto.
    + rewrite elem_of_cons. tauto.
    + rewrite !elem_of_cons, IH. tauto.
Qed.

Lemma elem_of_sorted_set (x : string) (l : list string) :
  x ∈ Py.sorted_set l ↔ x ∈ l.
Proof.
  unfold Py.sorted_set.
  induction l as [|y t IH]; simpl; [done|].
  rewrite elem_of_insert_sorted, IH, elem_of_cons. tauto.
Qed.

Lemma dict_of_lookup_acc (pairs : list (string * string))
    (acc : gmap string string) (k v : string) :
  foldl (λ d kv, <[kv.1 := kv.2]> d) acc pairs !! k = Some v →
  (k, v) ∈ pairs ∨ acc !! k = Some v.
Proof.
  revert acc. induction pairs as [|[k' v'] t IH]; intros acc H; simpl in *.
  - by right.
  - destruct (IH _ H) as [Hin|Hacc].
    + left. by apply list_elem_of_further.
    + destruct (decide (k' = k)) as [->|Hne].
      * rewrite lookup_insert_eq in Hacc. injection Hacc as ->.
        left. apply list_elem_of_here.
      * rewrite lookup_insert_ne in Hacc by done. by right.
Qed.

Lemma dict_of_lookup (pairs : list (string * string)) (k v : string) :
  dict_of pairs !! k = Some v → (k, v) ∈ pairs.
Proof.
  intros H. destruct (dict_of_lookup_acc pairs ∅ k v H) as [?|He]; [done|].
  by rewrite lookup_empty in He.
Qed.

Lemma specs_getitem_elem (items : list (string * CredentialSpec))
    (cred_name : string) (spec : CredentialSpec) :
  (cred_name, spec) ∈ items → is_Some (specs_getitem items cred_name).
Proof.
  induction items as [|[n s] t IH]; intros Hin; simpl.
  - by apply elem_of_nil in Hin.
  - destruct (String.eqb n cred_name) eqn:He; [by eexists|].
    apply elem_of_cons in Hin as [Heq|Hin]; [|by apply IH].
    injection Heq as <- <-. by rewrite String.eqb_refl in He.
Qed.

Lemma reverse_mapping_resolves (specs : list (string * CredentialSpec))
    (members : CredentialSpec → list string) :
  resolves specs
    (dict_of (flat_map (λ '(name, spec), map (λ m, (m, name)) (members spec)) specs)).
Proof.
  intros k cred_name H. apply dict_of_lookup in H.
  apply list_elem_of_In, in_flat_map in H as [[n s] [Hin Hm]].
  apply in_map_iff in Hm as [m [Heq _]]. injection Heq as -> ->.
  apply (specs_getitem_elem _ _ s). by apply list_elem_of_In.
Qed.

Lemma tool_to_cred_resolves specs : resolves specs (tool_to_cred specs).
Proof. apply (reverse_mapping_resolves specs spec_tools). Qed.

Lemma node_type_to_cred_resolves specs : resolves specs (node_type_to_cred specs).
Proof. apply (reverse_mapping_resolves specs spec_node_types). Qed.

(** *** The deduplicating loops *)

Section Scan.

Variable environ : gmap string string.
Variable EncryptedFileStorage_exists : string → bool.
Variable EnvVarStorage_exists : gmap string string → string → bool.
Variable CREDENTIAL_SPECS : list (string * CredentialSpec).

Let check_with : string → CredentialSpec → string → _CredentialCheck :=
  check_credential_with environ EncryptedFileStorage_exists
    EnvVarStorage_exists CREDENTIAL_SPECS.

Let scan_with := scan environ EncryptedFileStorage_exists
    EnvVarStorage_exists CREDENTIAL_SPECS.

Variable to_cred : gmap string string.
Variable pool : list string.
Variable members : CredentialSpec → list string.
Variable label : string → string.
Hypothesis to_cred_resolves : resolves CREDENTIAL_SPECS to_cred.

(** An iteration either leaves the state alone, the key's credential being
    none, empty or already checked, or appends the check of a new one. *)
Lemma scan_step_cases (key : string) (checks : list _CredentialCheck)
    (checked : gset string) :
  (scan_step environ EncryptedFileStorage_exists EnvVarStorage_exists
     CREDENTIAL_SPECS to_cred pool members label key (checks, checked)
   = inr (checks, checked)
   ∧ ∀ cred_name, to_cred !! key = Some cred_name →
                  Py.truthy cred_name = true → cred_name ∈ checked)
  ∨ (∃ cred_name spec used_by,
       to_cred !! key = Some cred_name ∧ Py.truthy cred_name = true
       ∧ specs_getitem CREDENTIAL_SPECS cred_name = Some spec
       ∧ scan_step environ EncryptedFileStorage_exists EnvVarStorage_exists
           CREDENTIAL_SPECS to_cred pool members label key (checks, checked)
         = inr (checks ++ [check_with cred_name spec used_by],
                {[cred_name]} ∪ checked)).
Proof.
  unfold scan_step. destruct (to_cred !! key) as [cred_name|] eqn:Hk.
  - destruct (Py.truthy cred_name) eqn:Ht; simpl.
    + destruct (bool_decide (cred_name ∈ checked)) eqn:Hin; simpl.
      * left. split; [done|]. intros n [= <-] _.
        by apply bool_decide_eq_true in Hin.
      * right. destruct (to_cred_resolves _ _ Hk) as [spec Hs].
        exists cred_name, spec. eexists. unfold check_credential.
        rewrite Hs. by repeat split.
    + left. split; [done|]. intros n [= <-]. congruence.
  - left. split; [done|]. intros n. discriminate.
Qed.

(** What a whole loop does to [checks] and [checked]. *)
Lemma scan_spec (keys : list string) (st : scan_state) :
  ∃ st' : scan_state,
    scan_with to_cred pool members label keys st = inr st'
    ∧ (∀ c, c ∈ st.1 → c ∈ st'.1)
    ∧ (∀ n, n ∈ st.2 → n ∈ st'.2)
    ∧ (∀ key cred_name, key ∈ keys → to_cred !! key = Some cred_name →
                        Py.truthy cred_name = true → cred_name ∈ st'.2)
    ∧ (∀ c, c ∈ st'.1 →
            c ∈ st.1
            ∨ ∃ key cred_name spec used_by,
                key ∈ keys ∧ to_cred !! key = Some cred_name
                ∧ Py.truthy cred_name = true
                ∧ specs_getitem CREDENTIAL_SPECS cred_name = Some spec
                ∧ c = check_with cred_name spec used_by)
    ∧ (∀ n, n ∈ st'.2 →
            n ∈ st.2
            ∨ ∃ spec used_by,
                specs_getitem CREDENTIAL_SPECS n = Some spec
                ∧ check_with n spec used_by ∈ st'.1).
Proof.
  revert st. induction keys as [|key rest IH]; intros [checks checked].
  - exists (checks, checked). simpl. repeat split; auto.
    intros key n Hin. by apply elem_of_nil in Hin.
  - unfold scan_with in *. cbn [scan].
    destruct (scan_step_cases key checks checked)
      as [[Hstep Hskip]|(n0 & spec0 & u0 & Hk0 & Ht0 & Hs0 & Hstep)];
      rewrite Hstep.
    + destruct (IH (checks, checked)) as (st' & Hscan & Hc & Hn & Hkeys & Hsound & Hcov).
      exists st'. split; [exact Hscan|]. repeat split; auto.
      * intros k n Hin Hk Ht. apply elem_of_cons in Hin as [->|Hin]; [|eauto].
        apply Hn. simpl. by apply Hskip.
      * intros c Hin. destruct (Hsound c Hin) as [?|(k & n & s & u & Hk & H)];
          [by left|].
        right. exists k, n, s, u. split; [by apply list_elem_of_further|done].
    + destruct (IH (checks ++ [check_with n0 spec0 u0], {[n0]} ∪ checked))
        as (st' & Hscan & Hc & Hn & Hkeys & Hsound & Hcov).
      simpl in Hc, Hn, Hsound, Hcov.
      exists st'. split; [exact Hscan|]. simpl. repeat split.
      * intros c Hin. apply Hc, elem_of_app. by left.
      * intros n Hin. apply Hn, elem_of_union. by right.
      * intros k n Hin Hk Ht. apply elem_of_cons in Hin as [->|Hin]; [|eauto].
        apply Hn, elem_of_union. left. apply elem_of_singleton. congruence.
      * intros c Hin. destruct (Hsound c Hin) as [Hold|(k & n & s & u & Hk & H)].
        -- apply elem_of_app in Hold as [?|Hnew]; [by left|].
           apply list_elem_of_singleton in Hnew. right.
           exists key, n0, spec0, u0. split; [apply list_elem_of_here|done].
        -- right. exists k, n, s, u. split; [by apply list_elem_of_further|done].
      * intros n Hin. destruct (Hcov n Hin) as [Hold|?]; [|by right].
        apply elem_of_union in Hold as [Hnew|?]; [|by left].
        apply elem_of_singleton in Hnew. subst n. right.
        exists spec0, u0. split; [done|]. apply Hc, elem_of_app. right.
        apply list_elem_of_here.
Qed.

End Scan.

(** *** The checks of a call *)

Section Validate.

Variable environ : gmap string string.
Variable EncryptedFileStorage_exists : string → bool.
Variable EnvVarStorage_exists : gmap string string → string → bool.
Variable CREDENTIAL_SPECS : list (string * CredentialSpec).

Let check_with : string → CredentialSpec → string → _CredentialCheck :=
  check_credential_with environ EncryptedFileStorage_exists
    EnvVarStorage_exists CREDENTIAL_SPECS.

Let checks_of : list NodeSpec → exn + list _CredentialCheck :=
  collect_checks environ EncryptedFileStorage_exists
    EnvVarStorage_exists CREDENTIAL_SPECS.

Let validate : list NodeSpec → bool → outcome :=
  validate_agent_credentials environ EncryptedFileStorage_exists
    EnvVarStorage_exists (Some CREDENTIAL_SPECS).

(** The lookups of [CREDENTIAL_SPECS] never raise, every required
    credential is checked, and nothing else is. *)
Lemma collect_checks_spec (nodes : list NodeSpec) :
  ∃ checks,
    checks_of nodes = inr checks
    ∧ (∀ cred_name spec,
         required CREDENTIAL_SPECS nodes cred_name →
         specs_getitem CREDENTIAL_SPECS cred_name = Some spec →
         ∃ used_by, check_with cred_name spec used_by ∈ checks)
    ∧ (∀ c, c ∈ checks →
         ∃ cred_name spec used_by,
           required CREDENTIAL_SPECS nodes cred_name
           ∧ specs_getitem CREDENTIAL_SPECS cred_name = Some spec
           ∧ c = check_with cred_name spec used_by).
Proof.
  unfold checks_of, collect_checks.
  destruct (scan_spec environ EncryptedFileStorage_exists EnvVarStorage_exists
              CREDENTIAL_SPECS (tool_to_cred CREDENTIAL_SPECS)
              (required_tools nodes) spec_tools (λ a, a)
              (tool_to_cred_resolves CREDENTIAL_SPECS)
              (Py.sorted_set (required_tools nodes)) ([], ∅))
    as (st1 & Hscan1 & _ & _ & Hkeys1 & Hsound1 & Hcov1).
  rewrite Hscan1.
  destruct (scan_spec environ EncryptedFileStorage_exists EnvVarStorage_exists
              CREDENTIAL_SPECS (node_type_to_cred CREDENTIAL_SPECS)
              (node_types nodes) spec_node_types (λ a, a +:+ " nodes")
              (node_type_to_cred_resolves CREDENTIAL_SPECS)
              (Py.sorted_set (node_types nodes)) st1)
    as ([checks checked] & Hscan2 & Hc2 & Hn2 & Hkeys2 & Hsound2 & Hcov2).
  rewrite Hscan2. simpl in *.
  exists checks. split; [done|]. split.
  - intros n spec [Ht Hreq] Hs.
    assert (Hin : n ∈ checked).
    { destruct Hreq as [(tool & Hin & Hk)|(nt & Hin & Hk)].
      - apply Hn2. apply (Hkeys1 tool); [|done..]. by apply elem_of_sorted_set.
      - apply (Hkeys2 nt); [|done..]. by apply elem_of_sorted_set. }
    destruct (Hcov2 n Hin) as [Hold|(spec' & u & Hs' & Hc)].
    + destruct (Hcov1 n Hold) as [Hemp|(spec' & u & Hs' & Hc)].
      * by apply elem_of_empty in Hemp.
      * assert (spec' = spec) as -> by congruence.
        exists u. by apply Hc2.
    + assert (spec' = spec) as -> by congruence. by exists u.
  - intros c Hin.
    destruct (Hsound2 c Hin) as [Hold|(k & n & sp & u & Hk & Hto & Ht & Hs & ->)].
    + destruct (Hsound1 c Hold)
        as [Hemp|(k & n & sp & u & Hk & Hto & Ht & Hs & ->)].
      * by apply elem_of_nil in Hemp.
      * exists n, sp, u. repeat split; [done| |done].
        left. exists k. split; [by apply elem_of_sorted_set|done].
    + exists n, sp, u. repeat split; [done| |done].
      right. exists k. split; [by apply elem_of_sorted_set|done].
Qed.

Lemma store_is_available_false (cred_id : string) :
  store_is_available environ EncryptedFileStorage_exists EnvVarStorage_exists
    CREDENTIAL_SPECS cred_id = false
  ↔ unavailable_everywhere environ EncryptedFileStorage_exists
      EnvVarStorage_exists CREDENTIAL_SPECS cred_id.
Proof.
  unfold store_is_available, unavailable_everywhere.
  destruct (encrypted_storage environ), (EncryptedFileStorage_exists cred_id),
    (env_storage_exists EnvVarStorage_exists CREDENTIAL_SPECS cred_id);
    simpl; intuition congruence.
Qed.



(** What the call raises, in terms of its checks. *)
Lemma validate_raised (nodes : list NodeSpec) (quiet : bool)
    (checks : list _CredentialCheck) :
  checks_of nodes = inr checks →
  raised (validate nodes quiet)
  = match missing_of checks with
    | [] => None
    | _ :: _ =>
        Some (CredentialError (Py.join NL (error_lines (missing_of checks))))
    end.
Proof.
  intros Hc.
  unfold validate, validate_agent_credentials, validate_agent_credentials_body.
  fold checks_of. rewrite Hc. by destruct (missing_of checks).
Qed.

Lemma validate_stdout (nodes : list NodeSpec) (quiet : bool)
    (checks : list _CredentialCheck) :
  checks_of nodes = inr checks →
  stdout (validate nodes quiet) = summary quiet checks.
Proof.
  intros Hc.
  unfold validate, validate_agent_credentials, validate_agent_credentials_body.
  fold checks_of. rewrite Hc. by destruct (missing_of checks).
Qed.

Lemma summary_entry_printed (c : _CredentialCheck)
    (checks : list _CredentialCheck) (line : string) :
  c ∈ checks → line ∈ summary_entry c → line ∈ summary false checks.
Proof.
  intros Hc Hl. unfold summary. destruct checks as [|c0 rest].
  - by apply elem_of_nil in Hc.
  - set (all := c0 :: rest) in *.
    apply elem_of_app. right. apply elem_of_app. left.
    apply list_elem_of_In, in_flat_map. exists c.
    split; by apply list_elem_of_In.
Qed.

End Validate.


(** The example of [Credentials]: the key of the encrypted store is set, the
    store has the Anthropic key, the environment has nothing. *)
Lemma missing_brave_key_is_reported :
  let environ : gmap string string := {[ Bootstrap.HIVE_CREDENTIAL_KEY := "k" ]} in
  let result := validate_agent_credentials environ (String.eqb "anthropic_key")
                  (env_store_with []) (Some example_specs) example_nodes true in
  ∃ msg, raised result = Some (CredentialError msg)
         ∧ Py.contains "  BRAVE_SEARCH_API_KEY for web_search" msg = true
         ∧ Py.contains "    Get it at: https://brave.com/search/api/" msg = true
         ∧ Py.contains "ANTHROPIC_API_KEY" msg = false.
Proof. eexists. repeat split; vm_compute; reflexivity. Qed.

(** C6, as amended.  The check of a required credential reports its source
    in the priority order of the stores the call consults: "encrypted
    store" when the encrypted store is in use, [HIVE_CREDENTIAL_KEY] being
    set to a non-empty value, and has the credential; "environment
    variable" when it is not reported by an encrypted store in use and the
    environment has it; and that is the source the summary prints. *)
Theorem reported_source_follows_priority
    (environ : gmap string string)
    (EncryptedFileStorage_exists : string → bool)
    (EnvVarStorage_exists : gmap string string → string → bool)
    (CREDENTIAL_SPECS : list (string * CredentialSpec))
    (nodes : list NodeSpec) (cred_name : string) (spec : CredentialSpec) :
  required CREDENTIAL_SPECS nodes cred_name →
  specs_getitem CREDENTIAL_SPECS cred_name = Some spec →
  let cred_id := cred_id_of cred_name spec in
  let in_encrypted := encrypted_storage environ
                      && EncryptedFileStorage_exists cred_id in
  let in_environment := env_storage_exists EnvVarStorage_exists
                          CREDENTIAL_SPECS cred_id in
  let printed := stdout (validate_agent_credentials environ
                           EncryptedFileStorage_exists EnvVarStorage_exists
                           (Some CREDENTIAL_SPECS) nodes false) in
  ∃ checks c,
    collect_checks environ EncryptedFileStorage_exists EnvVarStorage_exists
      CREDENTIAL_SPECS nodes = inr checks
    ∧ c ∈ checks ∧ c_env_var c = env_var spec
    ∧ (in_encrypted = true →
       c_source c = "encrypted store"
       ∧ "      Source: encrypted store" ∈ printed)
    ∧ (in_encrypted = false → in_environment = true →
       c_source c = "environment variable"
       ∧ "      Source: environment variable" ∈ printed).
Proof.
  intros Hreq Hget cred_id in_encrypted in_environment printed.
  destruct (collect_checks_spec environ EncryptedFileStorage_exists
              EnvVarStorage_exists CREDENTIAL_SPECS nodes)
    as (checks & Hchecks & Hall & _).
  destruct (Hall cred_name spec Hreq Hget) as [used_by Hc].
  set (c := check_credential_with environ EncryptedFileStorage_exists
              EnvVarStorage_exists CREDENTIAL_SPECS cred_name spec used_by) in *.
  assert (Hprinted : ∀ line, line ∈ summary_entry c → line ∈ printed).
  { intros line Hl. subst printed.
    rewrite (validate_stdout _ _ _ _ _ _ _ Hchecks).
    by apply (summary_entry_printed c). }
  assert (Hsrc : c_source c
                 = if in_encrypted then "encrypted store"
                   else if in_environment then "environment variable"
                   else "not found") by reflexivity.
  assert (Hav : c_available c = in_encrypted || in_environment) by reflexivity.
  exists checks, c. split; [done|]. split; [done|]. split; [done|]. split.
  - intros He. rewrite He in Hsrc, Hav. split; [done|].
    apply Hprinted. unfold summary_entry. rewrite Hav, Hsrc.
    apply list_elem_of_further, list_elem_of_here.
  - intros He Hv. rewrite He, Hv in Hsrc, Hav. split; [done|].
    apply Hprinted. unfold summary_entry. rewrite Hav, Hsrc.
    apply list_elem_of_further, list_elem_of_here.
Qed.

Lemma example_requires_anthropic : required example_specs example_nodes "anthropic".
Proof.
  split; [reflexivity|]. right. exists "llm_tool_use". split.
  - apply list_elem_of_here.
  - vm_compute. reflexivity.
Defined.

Lemma example_requires_brave : required example_specs example_nodes "brave_search".
Proof.
  split; [reflexivity|]. left. exists "web_search". split.
  - apply list_elem_of_here.
  - vm_compute. reflexivity.
Defined.

(** With the key set, the Anthropic key in the encrypted store and the
    Brave key in the environment only, each is reported where it is. *)
Lemma reported_source_follows_priority_witness :
  let environ : gmap string string := {[ Bootstrap.HIVE_CREDENTIAL_KEY := "k" ]} in
  (∃ checks c,
     collect_checks environ (String.eqb "anthropic_key")
       (env_store_with ["brave_search"]) example_specs example_nodes = inr checks
     ∧ c ∈ checks ∧ c_env_var c = "ANTHROPIC_API_KEY"
     ∧ c_source c = "encrypted store"
     ∧ "      Source: encrypted store"
       ∈ stdout (validate_agent_credentials environ (String.eqb "anthropic_key")
                   (env_store_with ["brave_search"]) (Some example_specs)
                   example_nodes false))
  ∧ (∃ checks c,
       collect_checks environ (String.eqb "anthropic_key")
         (env_store_with ["brave_search"]) example_specs example_nodes = inr checks
       ∧ c ∈ checks ∧ c_env_var c = "BRAVE_SEARCH_API_KEY"
       ∧ c_source c = "environment variable"
       ∧ "      Source: environment variable"
         ∈ stdout (validate_agent_credentials environ (String.eqb "anthropic_key")
                     (env_store_with ["brave_search"]) (Some example_specs)
                     example_nodes false)).
Proof.
  intros environ. split.
  - destruct (reported_source_follows_priority environ (String.eqb "anthropic_key")
                (env_store_with ["brave_search"]) example_specs example_nodes
                "anthropic"
                {| env_var := "ANTHROPIC_API_KEY"; spec_tools := [];
                   spec_node_types := ["llm_generate"; "llm_tool_use"];
                   credential_id := "anthropic_key"; help_url := "" |}
                example_requires_anthropic eq_refl)
      as (checks & c & Hchecks & Hin & Hvar & Henc & _).
    exists checks, c. split; [exact Hchecks|]. split; [exact Hin|].
    split; [exact Hvar|]. apply Henc. reflexivity.
  - destruct (reported_source_follows_priority environ (String.eqb "anthropic_key")
                (env_store_with ["brave_search"]) example_specs example_nodes
                "brave_search"
                {| env_var := "BRAVE_SEARCH_API_KEY";
                   spec_tools := ["web_search"; "news_search"];
                   spec_node_types := []; credential_id := "";
                   help_url := "https://brave.com/search/api/" |}
                example_requires_brave eq_refl)
      as (checks & c & Hchecks & Hin & Hvar & _ & Henv).
    exists checks, c. split; [exact Hchecks|]. split; [exact Hin|].
    split; [exact Hvar|]. apply Henv; reflexivity.
Defined.

(** C6, counterexample.  With [HIVE_CREDENTIAL_KEY] unset the encrypted
    store is not consulted: a required credential that is present in it,
    and nowhere else, is reported with the source "not found", not
    "encrypted store". *)
Lemma encrypted_store_needs_the_key :
  ¬ (∀ (environ : gmap string string) (Encrypted : string → bool)
       (EnvVar : gmap string string → string → bool)
       (specs : list (string * CredentialSpec)) (nodes : list NodeSpec)
       (cred_name : string) (spec : CredentialSpec)
       (checks : list _CredentialCheck),
        required specs nodes cred_name →
        specs_getitem specs cred_name = Some spec →
        Encrypted (cred_id_of cred_name spec) = true →
        collect_checks environ Encrypted EnvVar specs nodes = inr checks →
        ∃ c, c ∈ checks ∧ c_env_var c = env_var spec
             ∧ c_source c = "encrypted store").
Proof.
  intros H.
  destruct (H ∅ (String.eqb "anthropic_key") (env_store_with [])
              example_specs example_nodes "anthropic" _ _
              example_requires_anthropic eq_refl eq_refl eq_refl)
    as (c & Hin & _ & Hsrc).
  apply elem_of_cons in Hin as [->|Hin]; [vm_compute in Hsrc; discriminate|].
  apply list_elem_of_singleton in Hin. subst c.
  vm_compute in Hsrc. discriminate.
Qed.

(** C7.  Without the companion library the call does nothing: for every
    node list and flag it returns without raising and without printing,
    and no environment or store can make a difference to that. *)
Theorem validate_is_noop_without_library
    (environ : gmap string string)
    (EncryptedFileStorage_exists : string → bool)
    (EnvVarStorage_exists : gmap string string → string → bool)
    (nodes : list NodeSpec) (quiet : bool) :
  let result := validate_agent_credentials environ EncryptedFileStorage_exists
                  EnvVarStorage_exists None nodes quiet in
  raised result = None
  ∧ stdout result = []
  ∧ ∀ environ' encrypted' environment',
      validate_agent_credentials environ' encrypted' environment' None
        nodes quiet = result.
Proof.
  intros result. split; [reflexivity|]. split; [reflexivity|].
  intros environ' encrypted' environment'. reflexivity.
Qed.

(** C10.  The [quiet] flag changes the printed summary only: with and
    without it the call raises the same thing, or returns in both cases,
    and with it nothing is printed. *)
Theorem quiet_changes_only_the_summary
    (environ : gmap string string)
    (EncryptedFileStorage_exists : string → bool)
    (EnvVarStorage_exists : gmap string string → string → bool)
    (aden_tools : option (list (string * CredentialSpec)))
    (nodes : list NodeSpec) :
  let call := validate_agent_credentials environ EncryptedFileStorage_exists
                EnvVarStorage_exists aden_tools nodes in
  raised (call true) = raised (call false)
  ∧ ((∃ msg, raised (call true) = Some (CredentialError msg))
     ↔ (∃ msg, raised (call false) = Some (CredentialError msg)))
  ∧ stdout (call true) = [].
Proof.
  intros call. subst call.
  assert (Hsame :
    raised (validate_agent_credentials environ EncryptedFileStorage_exists
              EnvVarStorage_exists aden_tools nodes true)
    = raised (validate_agent_credentials environ EncryptedFileStorage_exists
                EnvVarStorage_exists aden_tools nodes false)).
  { destruct aden_tools as [specs|]; [|done]. simpl.
    unfold validate_agent_credentials_body.
    destruct (collect_checks _ _ _ _ nodes) as [e|checks]; [done|].
    by destruct (missing_of checks). }
  split; [exact Hsame|]. split; [by rewrite Hsame|].
  destruct aden_tools as [specs|]; [|done]. simpl.
  unfold validate_agent_credentials_body.
  destruct (collect_checks _ _ _ _ nodes) as [e|checks]; [done|].
  destruct (missing_of checks); by destruct checks.
Qed.

End CredentialsFacts.

(** ** The graph executor *)

Module ExecutorFacts.
Import Executor Tests.

Lemma invocations_app (node_id : string) (t1 t2 : list event) :
  invocations node_id (t1 ++ t2) = invocations node_id t1 + invocations node_id t2.
Proof. unfold invocations. by rewrite filter_app, length_app. Qed.

(** One attempt adds one invocation of the node to the trace. *)
Lemma invocations_attempt (node_id : string) (t : list event) (attempt : nat)
    (r : NodeResult) (ok : bool) :
  invocations node_id
    (t ++ [Decide node_id attempt; Invoke node_id attempt r;
           RecordOutcome node_id attempt ok])
  = invocations node_id t + 1.
Proof.
  rewrite invocations_app. f_equal. unfold invocations.
  rewrite filter_cons_False by (simpl; discriminate).
  rewrite filter_cons_True by (simpl; apply String.eqb_refl).
  by rewrite filter_cons_False by (simpl; discriminate).
Qed.

Section Retry.

Context {St : Type}.
Variable spec : NodeSpec.
Variable input : gmap string string.
Variable goal : Goal.

(** The retry loop stops at the first success: [F] failures within the
    budget cost [F + 1] invocations. *)
Lemma retry_loop_succeeds (F : nat) :
  ∀ (retries_left attempt : nat) (impl : NodeProtocol St) (trace : list event),
    (F ≤ retries_left)%nat →
    fails_then_succeeds F impl →
    ∃ out impl' trace',
      retry_loop spec input goal retries_left attempt impl trace
      = (NodeSuccess out, impl', trace')
      ∧ invocations (id spec) trace' = invocations (id spec) trace + (F + 1).
Proof.
  induction F as [|F IH]; intros retries_left attempt impl trace Hle Hbeh.
  - specialize (Hbeh (attempt_context spec input goal attempt)).
    destruct retries_left; simpl;
      destruct (invoke impl (attempt_context spec input goal attempt))
        as [[out|err] impl'] eqn:Hinv; simpl in Hbeh; try discriminate;
      eexists _, _, _; (split; [reflexivity|]); apply invocations_attempt.
  - destruct retries_left as [|retries_left]; [lia|].
    destruct (Hbeh (attempt_context spec input goal attempt)) as [Hfail Hnext].
    simpl.
    destruct (invoke impl (attempt_context spec input goal attempt))
      as [[out|err] impl'] eqn:Hinv; simpl in Hfail, Hnext; [discriminate|].
    destruct (IH retries_left (Datatypes.S attempt) impl'
                (trace ++ [Decide (id spec) attempt;
                           Invoke (id spec) attempt (NodeFailure err);
                           RecordOutcome (id spec) attempt false]))
      as (out & impl'' & trace' & Hloop & Hcount); [lia|done|].
    exists out, impl'', trace'. split; [exact Hloop|].
    rewrite Hcount, invocations_attempt. lia.
Qed.

Lemma always_fails_invoke (impl : NodeProtocol St) (ctx : NodeContext) :
  always_fails impl → always_fails (invoke impl ctx).2.
Proof. intros H ctxs ctx'. apply (H (ctx :: ctxs) ctx'). Qed.

(** On an implementation that always fails the loop uses its whole budget,
    and what it returns is the result of the last attempt. *)
Lemma retry_loop_exhausts (retries_left : nat) :
  ∀ (attempt : nat) (impl : NodeProtocol St) (trace : list event),
    always_fails impl →
    ∃ last_error impl' trace',
      retry_loop spec input goal retries_left attempt impl trace
      = (NodeFailure last_error, impl', trace')
      ∧ (invoke (after_contexts impl
                   (attempt_contexts spec input goal attempt retries_left))
                (attempt_context spec input goal (attempt + retries_left))).1
        = NodeFailure last_error
      ∧ invocations (id spec) trace'
        = invocations (id spec) trace + (retries_left + 1).
Proof.
  induction retries_left as [|n IH]; intros attempt impl trace Hbeh.
  - pose proof (Hbeh [] (attempt_context spec input goal attempt)) as Hfail.
    simpl in *. rewrite Nat.add_0_r.
    destruct (invoke impl (attempt_context spec input goal attempt))
      as [[out|err] impl'] eqn:Hinv; [discriminate|].
    exists err, impl'. eexists. split; [reflexivity|]. split; [done|].
    apply invocations_attempt.
  - pose proof (Hbeh [] (attempt_context spec input goal attempt)) as Hfail.
    pose proof (always_fails_invoke impl
                  (attempt_context spec input goal attempt) Hbeh) as Hnext.
    simpl in *.
    destruct (invoke impl (attempt_context spec input goal attempt))
      as [[out|err] impl'] eqn:Hinv; [discriminate|]. simpl in Hnext.
    destruct (IH (Datatypes.S attempt) impl'
                (trace ++ [Decide (id spec) attempt;
                           Invoke (id spec) attempt (NodeFailure err);
                           RecordOutcome (id spec) attempt false]) Hnext)
      as (last & impl'' & trace' & Hloop & Hlast & Hcount).
    exists last, impl'', trace'. split; [exact Hloop|]. split.
    + rewrite <- Hlast. unfold attempt_contexts. simpl.
      by rewrite Nat.add_succ_r.
    + rewrite Hcount, invocations_attempt. lia.
Qed.

End Retry.

(** *** A run of the one-node graph *)

Lemma build_input_available (keys : list string) (shared : gmap string string) :
  (∀ k, k ∈ keys → is_Some (shared !! k)) →
  ∃ input, build_input keys shared = inr input.
Proof.
  induction keys as [|k rest IH]; intros Hav; simpl.
  - by eexists.
  - destruct (Hav k) as [v Hv]; [apply list_elem_of_here|]. rewrite Hv.
    destruct IH as [input Hin].
    + intros k' Hk'. apply Hav. by apply list_elem_of_further.
    + rewrite Hin. by eexists.
Qed.

(** Validation passes, and the traversal visits the one node: a run is the
    retry loop of that node followed by the end of the run. *)
Lemma run_single_unfold {St : Type} (fuel : nat) (spec : NodeSpec)
    (impl : NodeProtocol St) (goal : Goal)
    (initial_state input : gmap string string) :
  build_input (input_keys spec) initial_state = inr input →
  run_single (Datatypes.S fuel) spec impl goal initial_state
  = let '(r, impl', trace2) :=
      retry_loop spec input goal (max_retries spec) 1 impl
        [StartRun goal; SetNode (id spec)] in
    let registry' := <[id spec := impl']> (register_node ∅ (id spec) impl) in
    match r with
    | NodeFailure last_error =>
        Some (Returned {| success := false; output := initial_state;
                          error := Some (failure_message spec last_error) |},
              {| shared := initial_state; registry := registry';
                 trace := trace2
                          ++ [ReportProblem (id spec)
                                (failure_message spec last_error);
                              EndRun false] |})
    | NodeSuccess out =>
        let shared' := merge_output (output_keys spec) out initial_state in
        Some (Returned {| success := true; output := shared'; error := None |},
              {| shared := shared'; registry := registry';
                 trace := trace2 ++ [EndRun true] |})
    end.
Proof.
  intros Hin. unfold run_single, execute, validate_graph, register_node.
  cbn [single_node_graph edges entry_node terminal_nodes nodes flat_map app].
  unfold declared. cbn [single_node_graph nodes map Py.mem existsb].
  rewrite String.eqb_refl. cbn [orb app].
  rewrite (lookup_insert_eq (M:=gmap string)). cbn [app].
  cbn [traverse]. unfold find_node, next_node.
  cbn [single_node_graph nodes edges terminal_nodes List.find fmap option_fmap
       option_map Py.mem existsb].
  rewrite String.eqb_refl. cbn [shared registry trace app orb].
  rewrite (lookup_insert_eq (M:=gmap string)). rewrite Hin.
  destruct (retry_loop spec input goal (max_retries spec) 1 impl
              [StartRun goal; SetNode (id spec)]) as [[[out|err] impl'] trace2];
    reflexivity.
Qed.

(** The run of a node that fails [F] times within its budget. *)
Lemma run_single_succeeds {St : Type} (fuel : nat) (spec : NodeSpec)
    (impl : NodeProtocol St) (goal : Goal)
    (initial_state : gmap string string) (F : nat) :
  (F ≤ max_retries spec)%nat →
  fails_then_succeeds F impl →
  inputs_available spec initial_state →
  ∃ r st,
    run_single (Datatypes.S fuel) spec impl goal initial_state
    = Some (Returned r, st)
    ∧ success r = true
    ∧ error r = None
    ∧ invocations (id spec) (trace st) = F + 1.
Proof.
  intros Hle Hbeh Hav.
  destruct (build_input_available _ _ Hav) as [input Hin].
  rewrite (run_single_unfold fuel spec impl goal initial_state input Hin).
  destruct (retry_loop_succeeds spec input goal F (max_retries spec) 1 impl
              [StartRun goal; SetNode (id spec)] Hle Hbeh)
    as (out & impl' & trace' & Hloop & Hcount).
  rewrite Hloop. eexists _, _. split; [reflexivity|]. simpl.
  split; [done|]. split; [done|].
  rewrite invocations_app, Hcount.
  change (invocations (id spec) [StartRun goal; SetNode (id spec)]) with 0.
  change (invocations (id spec) [EndRun true]) with 0. lia.
Qed.

(** The run of a node that always fails. *)
Lemma run_single_fails {St : Type} (fuel : nat) (spec : NodeSpec)
    (impl : NodeProtocol St) (goal : Goal)
    (initial_state : gmap string string) :
  always_fails impl →
  inputs_available spec initial_state →
  ∃ r st input last_error,
    build_input (input_keys spec) initial_state = inr input
    ∧ run_single (Datatypes.S fuel) spec impl goal initial_state
      = Some (Returned r, st)
    ∧ success r = false
    ∧ invocations (id spec) (trace st) = max_retries spec + 1
    ∧ nth_attempt_result spec input goal impl (max_retries spec + 1)
      = NodeFailure last_error
    ∧ error r = Some ("failed after " +:+ Py.str_of_nat (max_retries spec)
                      +:+ " attempts: " +:+ last_error).
Proof.
  intros Hbeh Hav.
  destruct (build_input_available _ _ Hav) as [input Hin].
  destruct (retry_loop_exhausts spec input goal (max_retries spec) 1 impl
              [StartRun goal; SetNode (id spec)] Hbeh)
    as (last & impl' & trace' & Hloop & Hlast & Hcount).
  eexists _, _, input, last. split; [exact Hin|].
  rewrite (run_single_unfold fuel spec impl goal initial_state input Hin), Hloop.
  split; [reflexivity|]. simpl. split; [done|]. split.
  - rewrite invocations_app, Hcount.
    change (invocations (id spec) [StartRun goal; SetNode (id spec)]) with 0.
    match goal with
    | |- context [invocations _ [ReportProblem ?n ?m; EndRun false]] =>
        change (invocations (id spec) [ReportProblem n m; EndRun false]) with 0
    end. lia.
  - split; [|done]. unfold nth_attempt_result.
    replace (max_retries spec + 1 - 1) with (max_retries spec) by lia.
    replace (max_retries spec + 1) with (1 + max_retries spec) by lia.
    exact Hlast.
Qed.

(** *** The nodes of the tests *)

Lemma after_contexts_execute {St : Type} (impl : NodeProtocol St)
    (ctxs : list NodeContext) :
  execute_attempt (after_contexts impl ctxs) = execute_attempt impl.
Proof.
  revert impl. induction ctxs as [|ctx rest IH]; intros impl; [done|].
  simpl. rewrite IH. unfold invoke.
  by destruct (execute_attempt impl (self impl) ctx).
Qed.

Lemma failing_node_always_fails : always_fails failing_node.
Proof.
  intros ctxs ctx. unfold invoke. rewrite after_contexts_execute. reflexivity.
Qed.

(** A [FlakyTestNode] that has been called [count] times out of its
    [fail_times] fails [fail_times - count] more times. *)
Lemma flaky_fails_then_succeeds (remaining count : nat) :
  fails_then_succeeds remaining
    {| self := {| fail_times := count + remaining;
                  flaky_attempt_count := count |};
       execute_attempt := FlakyTestNode_execute |}.
Proof.
  revert count. induction remaining as [|k IH]; intros count ctx.
  - unfold invoke, FlakyTestNode_execute. simpl.
    destruct (Nat.leb_spec (count + 1) (count + 0)); [lia|done].
  - unfold invoke, FlakyTestNode_execute. simpl.
    destruct (Nat.leb_spec (count + 1) (count + Datatypes.S k)); [|lia].
    split; [done|]. simpl.
    replace (count + Datatypes.S k) with ((count + 1) + k) by lia. apply IH.
Qed.

Lemma flaky_node_fails_then_succeeds (F : nat) :
  fails_then_succeeds F (flaky_node (Some F)).
Proof. apply (flaky_fails_then_succeeds F 0). Qed.

Lemma no_input_keys_available (spec : NodeSpec) (shared : gmap string string) :
  input_keys spec = [] → inputs_available spec shared.
Proof. intros He k Hk. rewrite He in Hk. by apply elem_of_nil in Hk. Qed.

(** *** Retry counting *)

(** C1.  A node whose implementation fails [F <= max_retries] attempts and
    then succeeds: [execute] returns a successful result, and the node's
    execute operation has been invoked exactly [F + 1] times. *)
Theorem execute_retries_until_success {St : Type} (spec : NodeSpec)
    (impl : NodeProtocol St) (goal : Goal)
    (initial_state : gmap string string) (F fuel : nat) :
  (F ≤ max_retries spec)%nat →
  fails_then_succeeds F impl →
  inputs_available spec initial_state →
  ∃ r st,
    run_single (Datatypes.S fuel) spec impl goal initial_state
    = Some (Returned r, st)
    ∧ success r = true
    ∧ invocations (id spec) (trace st) = F + 1.
Proof.
  intros Hle Hbeh Hav.
  destruct (run_single_succeeds fuel spec impl goal initial_state F Hle Hbeh Hav)
    as (r & st & Hrun & Hok & _ & Hcount).
  by exists r, st.
Qed.

(** The first test: [max_retries = 10], five failures, six invocations. *)
Lemma execute_retries_until_success_witness :
  ∃ r st,
    run_single 1 flaky_spec (flaky_node (Some 5)) (test_goal "high") ∅
    = Some (Returned r, st)
    ∧ success r = true
    ∧ invocations "flaky_node" (trace st) = 6.
Proof.
  apply (execute_retries_until_success flaky_spec (flaky_node (Some 5))
           (test_goal "high") ∅ 5 0).
  - simpl. lia.
  - apply flaky_node_fails_then_succeeds.
  - by apply no_input_keys_available.
Defined.

Example test_executor_respects_custom_max_retries_high :
  match run_single 1 flaky_spec (flaky_node (Some 5)) (test_goal "high") ∅ with
  | Some (Returned r, st) =>
      success r = true
      ∧ (flaky_attempt_count ∘ self) <$> (registry st !! "flaky_node") = Some 6
      ∧ output r !! "result" = Some "succeeded after 6 attempts"
  | _ => False
  end.
Proof. vm_compute. by repeat split. Qed.

(** C2.  A node whose implementation fails every attempt: [execute]
    returns a failed result after exactly [max_retries + 1] invocations,
    and its error is "failed after {max_retries} attempts: {last_error}",
    where the count is [max_retries] itself and [last_error] is the error
    text of the final attempt's [NodeResult]. *)
Theorem execute_fails_after_budget {St : Type} (spec : NodeSpec)
    (impl : NodeProtocol St) (goal : Goal)
    (initial_state : gmap string string) (fuel : nat) :
  always_fails impl →
  inputs_available spec initial_state →
  ∃ r st input last_error,
    build_input (input_keys spec) initial_state = inr input
    ∧ run_single (Datatypes.S fuel) spec impl goal initial_state
      = Some (Returned r, st)
    ∧ success r = false
    ∧ invocations (id spec) (trace st) = max_retries spec + 1
    ∧ nth_attempt_result spec input goal impl (max_retries spec + 1)
      = NodeFailure last_error
    ∧ error r = Some ("failed after " +:+ Py.str_of_nat (max_retries spec)
                      +:+ " attempts: " +:+ last_error).
Proof. apply run_single_fails. Qed.

(** The second test: [max_retries = 2], three invocations. *)
Lemma execute_fails_after_budget_witness :
  ∃ r st input last_error,
    build_input [] ∅ = inr input
    ∧ run_single 1 fragile_spec failing_node (test_goal "low") ∅
      = Some (Returned r, st)
    ∧ success r = false
    ∧ invocations "fragile_node" (trace st) = 3
    ∧ nth_attempt_result fragile_spec input (test_goal "low") failing_node 3
      = NodeFailure last_error
    ∧ error r = Some ("failed after " +:+ "2" +:+ " attempts: " +:+ last_error).
Proof.
  apply (execute_fails_after_budget fragile_spec failing_node
           (test_goal "low") ∅ 0).
  - apply failing_node_always_fails.
  - by apply no_input_keys_available.
Defined.

Example test_executor_respects_custom_max_retries_low :
  match run_single 1 fragile_spec failing_node (test_goal "low") ∅ with
  | Some (Returned r, st) =>
      success r = false
      ∧ self <$> (registry st !! "fragile_node") = Some 3
      ∧ error r = Some "failed after 2 attempts: Permanent error (attempt 3)"
  | _ => False
  end.
Proof. vm_compute. by repeat split. Qed.

(** *** The default budget *)

Lemma prefix_append (p rest : string) : String.prefix p (p +:+ rest) = true.
Proof.
  induction p as [|a p IH]; simpl; [by destruct rest|].
  destruct (ascii_dec a a); [exact IH|done].
Qed.

Lemma contains_unfold (needle hay : string) :
  Py.contains needle hay
  = String.prefix needle hay
    || match hay with
       | EmptyString => false
       | String _ rest => Py.contains needle rest
       end.
Proof. by destruct hay. Qed.

Lemma contains_prefix (p rest : string) : Py.contains p (p +:+ rest) = true.
Proof. by rewrite contains_unfold, prefix_append. Qed.

(** C3.  A [NodeSpec] built without [max_retries] has [max_retries = 3]: a
    node that fails every attempt is invoked exactly 4 times and the run
    fails with an error that contains "failed after 3 attempts". *)
Theorem execute_respects_default_max_retries {St : Type}
    (node_id name node_type : string) (tools input_keys output_keys : list string)
    (impl : NodeProtocol St) (goal : Goal)
    (initial_state : gmap string string) (fuel : nat) :
  let spec := NodeSpec_new node_id name node_type tools None
                input_keys output_keys in
  always_fails impl →
  inputs_available spec initial_state →
  max_retries spec = 3
  ∧ ∃ r st message,
      run_single (Datatypes.S fuel) spec impl goal initial_state
      = Some (Returned r, st)
      ∧ success r = false
      ∧ invocations node_id (trace st) = 4
      ∧ error r = Some message
      ∧ Py.contains "failed after 3 attempts" message = true.
Proof.
  intros spec Hbeh Hav. split; [reflexivity|].
  destruct (run_single_fails fuel spec impl goal initial_state Hbeh Hav)
    as (r & st & input & last & _ & Hrun & Hfail & Hcount & _ & Herr).
  exists r, st. eexists. split; [exact Hrun|]. split; [exact Hfail|].
  split; [exact Hcount|]. split; [exact Herr|].
  apply (contains_prefix "failed after 3 attempts" (": " +:+ last)).
Qed.

(** The third test: [max_retries] left out, four invocations. *)
Lemma execute_respects_default_max_retries_witness :
  max_retries default_spec = 3
  ∧ ∃ r st message,
      run_single 1 default_spec failing_node (test_goal "default") ∅
      = Some (Returned r, st)
      ∧ success r = false
      ∧ invocations "default_node" (trace st) = 4
      ∧ error r = Some message
      ∧ Py.contains "failed after 3 attempts" message = true.
Proof.
  apply (execute_respects_default_max_retries "default_node" "Default Node"
           "function" [] [] ["result"] failing_node (test_goal "default") ∅ 0).
  - apply failing_node_always_fails.
  - by apply no_input_keys_available.
Defined.

Example test_executor_respects_default_max_retries :
  match run_single 1 default_spec failing_node (test_goal "default") ∅ with
  | Some (Returned r, st) =>
      success r = false
      ∧ self <$> (registry st !! "default_node") = Some 4
      ∧ error r = Some "failed after 3 attempts: Permanent error (attempt 4)"
  | _ => False
  end.
Proof. vm_compute. by repeat split. Qed.

(** *** Graph validation *)

Lemma flat_map_nil_iff {A B : Type} (f : A → list B) (l : list A) :
  flat_map f l = [] ↔ ∀ x, x ∈ l → f x = [].
Proof.
  induction l as [|a l IH]; simpl.
  - split; [|done]. intros _ x Hx. by apply elem_of_nil in Hx.
  - split.
    + intros He. apply app_eq_nil in He as [Ha Hl]. intros x Hx.
      apply elem_of_cons in Hx as [->|Hx]; [done|]. by apply IH.
    + intros H. rewrite (H a) by apply list_elem_of_here. simpl.
      apply IH. intros x Hx. apply H. by apply list_elem_of_further.
Qed.

Lemma elem_of_flat_map_intro {A B : Type} (f : A → list B) (l : list A)
    (x : A) (y : B) :
  x ∈ l → y ∈ f x → y ∈ flat_map f l.
Proof.
  intros Hx Hy. apply list_elem_of_In, in_flat_map. exists x.
  split; by apply list_elem_of_In.
Qed.

Section Validation.

Context {St : Type}.
Variable registry : gmap string (NodeProtocol St).
Variable graph : GraphSpec.

Lemma validate_graph_nil_iff :
  validate_graph registry graph = [] ↔ well_wired registry graph.
Proof.
  unfold validate_graph, well_wired.
  rewrite !app_nil, !flat_map_nil_iff. split.
  - intros (He & Hentry & Ht & Hn). repeat split.
    + specialize (He e H). by destruct (declared graph e.1).
    + specialize (He e H). destruct (declared graph e.1); [|done].
      by destruct (declared graph e.2).
    + by destruct (declared graph (entry_node graph)).
    + intros t Hin. specialize (Ht t Hin). by destruct (declared graph t).
    + intros n Hin. specialize (Hn n Hin). by destruct (registry !! id n).
  - intros (He & Hentry & Ht & Hn). repeat split.
    + intros e Hin. destruct (He e Hin) as [-> ->]. done.
    + by rewrite Hentry.
    + intros t Hin. by rewrite (Ht t Hin).
    + intros n Hin. by destruct (Hn n Hin) as [impl ->].
Qed.

End Validation.

(** C4.  Validation passes exactly when every edge endpoint, the entry node
    and every terminal node are declared and every declared node has a
    registered implementation; each single violation is in the list it
    returns; and when there is any, [execute] ends with one configuration
    error that carries the whole list, before the run is started and so
    before any node is invoked. *)
Theorem execute_reports_all_violations {St : Type}
    (registry : gmap string (NodeProtocol St)) (graph : GraphSpec)
    (goal : Goal) (initial_state : gmap string string) (fuel : nat) :
  let violations := validate_graph registry graph in
  (violations = [] ↔ well_wired registry graph)
  ∧ (∀ e, e ∈ edges graph → declared graph e.1 = false →
          EdgeSourceUndeclared e ∈ violations)
  ∧ (∀ e, e ∈ edges graph → declared graph e.2 = false →
          EdgeTargetUndeclared e ∈ violations)
  ∧ (declared graph (entry_node graph) = false →
     EntryNodeUndeclared (entry_node graph) ∈ violations)
  ∧ (∀ t, t ∈ terminal_nodes graph → declared graph t = false →
          TerminalNodeUndeclared t ∈ violations)
  ∧ (∀ n, n ∈ nodes graph → registry !! id n = None →
          NodeNotRegistered (id n) ∈ violations)
  ∧ (violations ≠ [] →
     execute fuel registry graph goal initial_state
     = Some (ConfigurationError violations,
             {| shared := initial_state; registry := registry; trace := [] |})).
Proof.
  intros violations. subst violations.
  split; [apply validate_graph_nil_iff|].
  unfold validate_graph. repeat split.
  - intros e Hin Hd. apply elem_of_app. left.
    apply (elem_of_flat_map_intro _ _ e); [done|]. rewrite Hd.
    apply list_elem_of_here.
  - intros e Hin Hd. apply elem_of_app. left.
    apply (elem_of_flat_map_intro _ _ e); [done|]. rewrite Hd.
    apply elem_of_app. right. apply list_elem_of_here.
  - intros Hd. apply elem_of_app. right. apply elem_of_app. left.
    rewrite Hd. apply list_elem_of_here.
  - intros t Hin Hd. apply elem_of_app. right. apply elem_of_app. right.
    apply elem_of_app. left.
    apply (elem_of_flat_map_intro _ _ t); [done|]. rewrite Hd.
    apply list_elem_of_here.
  - intros n Hin Hr. apply elem_of_app. right. apply elem_of_app. right.
    apply elem_of_app. right.
    apply (elem_of_flat_map_intro _ _ n); [done|]. rewrite Hr.
    apply list_elem_of_here.
  - intros Hne. unfold execute. fold (validate_graph registry graph) in *.
    by destruct (validate_graph registry graph).
Qed.

(** A graph with three wiring defects: all three are reported, and no node
    runs although the entry node is declared and registered. *)
Example broken_graph_is_rejected :
  execute 5 (register_node ∅ "fragile_node" failing_node) broken_graph
    (test_goal "broken") ∅
  = Some (ConfigurationError
            [EdgeTargetUndeclared ("fragile_node", "nowhere");
             TerminalNodeUndeclared "gone";
             NodeNotRegistered "default_node"],
          {| shared := ∅;
             registry := register_node ∅ "fragile_node" failing_node;
             trace := [] |}).
Proof. reflexivity. Qed.

(** *** The other scenarios of the test module *)

Example test_executor_max_retries_one_succeeds_immediately :
  match run_single 1 one_retry_spec (flaky_node (Some 1)) (test_goal "one") ∅ with
  | Some (Returned r, st) =>
      success r = true
      ∧ (flaky_attempt_count ∘ self) <$> (registry st !! "one_retry_node")
        = Some 2
  | _ => False
  end.
Proof. vm_compute. by repeat split. Qed.

(** A budget of one retry is not enough for two failures. *)
Example one_retry_is_not_enough_for_two_failures :
  match run_single 1 one_retry_spec (flaky_node (Some 2)) (test_goal "one") ∅ with
  | Some (Returned r, st) =>
      success r = false
      ∧ invocations "one_retry_node" (trace st) = 2
      ∧ error r = Some "failed after 1 attempts: Transient error (attempt 2)"
  | _ => False
  end.
Proof. vm_compute. by repeat split. Qed.

(** Two nodes of one graph keep their own budgets: the first succeeds at
    its third and last attempt, the second at its sixth, and the second
    reads the key the first one wrote. *)
Example two_nodes_keep_their_own_budgets :
  match execute 2
          (register_node (register_node ∅ "node1" (writer_node "result1" 2))
             "node2" (writer_node "result2" 5))
          two_node_graph (test_goal "two") ∅ with
  | Some (Returned r, st) =>
      success r = true
      ∧ invocations "node1" (trace st) = 3
      ∧ invocations "node2" (trace st) = 6
      ∧ output r !! "result1" = Some "succeeded after 3 attempts"
      ∧ output r !! "result2" = Some "succeeded after 6 attempts"
  | _ => False
  end.
Proof. vm_compute. by repeat split. Qed.

(** A node whose declared input is not in the shared state is not run. *)
Example missing_input_aborts_the_run :
  match run_single 1 node2_spec (writer_node "result2" 0) (test_goal "two") ∅ with
  | Some (MissingInputError "node2" "result1", st) =>
      invocations "node2" (trace st) = 0
  | _ => False
  end.
Proof. vm_compute. reflexivity. Qed.

End ExecutorFacts.

(** * Further properties *)

(** ** The secret bootstrap and the store it unlocks *)

Module BootstrapMore.
Import Bootstrap.

(** The three ways a call can go. *)
Lemma ensure_cases (shell : shell_config) (env : gmap string string) :
  let env' := (ensure_credential_key_env shell env).2 in
  (Py.truthy_opt (env !! HIVE_CREDENTIAL_KEY) = true ∧ env' = env)
  ∨ (Py.truthy_opt (env !! HIVE_CREDENTIAL_KEY) = false
     ∧ shell_supplies shell = false ∧ env' = env)
  ∨ (Py.truthy_opt (env !! HIVE_CREDENTIAL_KEY) = false
     ∧ shell_supplies shell = true
     ∧ ∃ check v, shell = Some check
                  ∧ check HIVE_CREDENTIAL_KEY = (true, Some v)
                  ∧ Py.truthy v = true
                  ∧ env' = <[HIVE_CREDENTIAL_KEY := v]> env).
Proof.
  unfold ensure_credential_key_env, shell_supplies.
  destruct (Py.truthy_opt (env !! HIVE_CREDENTIAL_KEY)) eqn:Hk; simpl;
    [by left|right].
  destruct shell as [check|]; [|by left].
  destruct (check HIVE_CREDENTIAL_KEY) as [found [v|]] eqn:Hc;
    destruct found; simpl; try (by left).
  destruct (Py.truthy v) eqn:Hv; [|by left].
  right. split; [done|]. split; [done|]. by exists check, v.
Qed.

(** Whether the key is set to a non-empty value after the call. *)
Lemma ensure_key_truthy (shell : shell_config) (env : gmap string string) :
  Py.truthy_opt ((ensure_credential_key_env shell env).2 !! HIVE_CREDENTIAL_KEY)
  = Py.truthy_opt (env !! HIVE_CREDENTIAL_KEY) || shell_supplies shell.
Proof.
  destruct (ensure_cases shell env)
    as [[Hk ->]|[(Hk & Hs & ->)|(Hk & Hs & check & v & _ & _ & Hv & ->)]].
  - by rewrite Hk.
  - by rewrite Hk, Hs.
  - rewrite Hk, Hs. rewrite (lookup_insert_eq (M:=gmap string)). exact Hv.
Qed.

(** X1.  After the bootstrap, the preflight builds the encrypted store
    exactly when the key was already set to a non-empty value or the shell
    configuration supplies one. *)
Theorem bootstrap_unlocks_encrypted_store
    (shell : shell_config) (env : gmap string string) :
  Credentials.encrypted_storage (ensure_credential_key_env shell env).2
  = Credentials.encrypted_storage env || shell_supplies shell.
Proof. apply ensure_key_truthy. Qed.

(** X2.  The bootstrap never removes a variable, and the value of the key
    after the call is either the one it had or the non-empty value that the
    shell configuration reported as found. *)
Theorem bootstrap_value_provenance
    (shell : shell_config) (env : gmap string string) :
  let env' := (ensure_credential_key_env shell env).2 in
  (∀ k, is_Some (env !! k) → is_Some (env' !! k))
  ∧ (env' !! HIVE_CREDENTIAL_KEY = env !! HIVE_CREDENTIAL_KEY
     ∨ ∃ check v, shell = Some check
                  ∧ check HIVE_CREDENTIAL_KEY = (true, Some v)
                  ∧ v ≠ ""
                  ∧ env' !! HIVE_CREDENTIAL_KEY = Some v).
Proof.
  intros env'. subst env'.
  destruct (ensure_cases shell env)
    as [[Hk ->]|[(Hk & Hs & ->)|(Hk & Hs & check & v & Hsh & Hc & Hv & ->)]];
    try (split; [done|by left]).
  split.
  - intros k Hsome. destruct (decide (k = HIVE_CREDENTIAL_KEY)) as [->|Hne].
    + rewrite (lookup_insert_eq (M:=gmap string)). by eexists.
    + by rewrite (lookup_insert_ne (M:=gmap string)).
  - right. exists check, v. repeat split; [done|done| |].
    + intros ->. discriminate.
    + by rewrite (lookup_insert_eq (M:=gmap string)).
Qed.

(** X3.  The bootstrap is idempotent: a second call, with the same shell
    configuration, finds the environment as the first one left it and
    changes nothing. *)
Theorem bootstrap_is_idempotent
    (shell : shell_config) (env : gmap string string) :
  ensure_credential_key_env shell (ensure_credential_key_env shell env).2
  = ensure_credential_key_env shell env.
Proof.
  unfold ensure_credential_key_env.
  destruct (Py.truthy_opt (env !! HIVE_CREDENTIAL_KEY)) eqn:Hk; cbn [snd].
  - by rewrite Hk.
  - destruct shell as [check|]; cbn [snd]; [|by rewrite Hk].
    destruct (check HIVE_CREDENTIAL_KEY) as [found [v|]] eqn:Hc;
      destruct found; cbn [andb Py.truthy_opt snd]; try (by rewrite Hk).
    destruct (Py.truthy v) eqn:Hv; cbn [snd].
    + rewrite (lookup_insert_eq (M:=gmap string)). cbn [Py.truthy_opt].
      by rewrite Hv.
    + by rewrite Hk.
Qed.

End BootstrapMore.

(** ** The checks of the preflight *)

Module CredentialsMore.
Import Credentials CredentialsFacts.

(** *** Sorted sets *)

Lemma str_lt_trans (x y z : string) :
  Py.str_lt x y → Py.str_lt y z → Py.str_lt x z.
Proof.
  unfold Py.str_lt. intros H1 H2.
  apply OrderedTypeEx.String_as_OT.cmp_lt in H1.
  apply OrderedTypeEx.String_as_OT.cmp_lt in H2.
  apply OrderedTypeEx.String_as_OT.cmp_lt.
  eapply OrderedTypeEx.String_as_OT.lt_trans; eauto.
Qed.

Lemma str_lt_irrefl (x : string) : ¬ Py.str_lt x x.
Proof.
  unfold Py.str_lt. intros H.
  pose proof (String.compare_antisym x x) as Ha.
  rewrite H in Ha. discriminate.
Qed.

Lemma insert_sorted_sorted (x : string) (l : list string) :
  StronglySorted Py.str_lt l → StronglySorted Py.str_lt (Py.insert_sorted x l).
Proof.
  induction 1 as [|y t Hs IH Hy]; simpl.
  - repeat constructor.
  - destruct (String.compare x y) eqn:Hc.
    + by constructor.
    + constructor; [by constructor|]. constructor; [exact Hc|].
      eapply Forall_impl; [exact Hy|]. intros z Hz.
      by apply (str_lt_trans x y z).
    + constructor; [exact IH|]. apply Forall_forall. intros z Hz.
      apply elem_of_insert_sorted in Hz as [->|Hz].
      * unfold Py.str_lt. rewrite String.compare_antisym, Hc. reflexivity.
      * rewrite Forall_forall in Hy. by apply Hy.
Qed.

Lemma sorted_set_sorted (l : list string) :
  StronglySorted Py.str_lt (Py.sorted_set l).
Proof.
  unfold Py.sorted_set. induction l as [|x t IH]; simpl.
  - constructor.
  - by apply insert_sorted_sorted.
Qed.

(** A strictly increasing list is determined by its elements. *)
Lemma sorted_ext (l1 l2 : list string) :
  StronglySorted Py.str_lt l1 → StronglySorted Py.str_lt l2 →
  (∀ x, x ∈ l1 ↔ x ∈ l2) → l1 = l2.
Proof.
  intros H1. revert l2. induction H1 as [|x1 t1 Hs1 IH Hx1]; intros l2 H2 Hel.
  - destruct l2 as [|x2 t2]; [done|].
    exfalso. eapply (elem_of_nil x2), Hel. apply list_elem_of_here.
  - destruct H2 as [|x2 t2 Hs2 Hx2].
    { exfalso. eapply (elem_of_nil x1), Hel. apply list_elem_of_here. }
    rewrite Forall_forall in Hx1, Hx2.
    assert (x1 = x2) as ->.
    { assert (x1 ∈ x2 :: t2) as Ha by (apply Hel, list_elem_of_here).
      assert (x2 ∈ x1 :: t1) as Hb by (apply Hel, list_elem_of_here).
      apply elem_of_cons in Ha as [?|Ha]; [done|].
      apply elem_of_cons in Hb as [?|Hb]; [done|].
      exfalso. apply (str_lt_irrefl x1).
      apply (str_lt_trans x1 x2 x1); auto. }
    f_equal. apply IH; [done|]. intros x. split; intros Hin.
    + assert (x ∈ x2 :: t2) as Ha by (apply Hel; by apply list_elem_of_further).
      apply elem_of_cons in Ha as [->|?]; [|done].
      exfalso. apply (str_lt_irrefl x2). by apply Hx1.
    + assert (x ∈ x2 :: t1) as Ha by (apply Hel; by apply list_elem_of_further).
      apply elem_of_cons in Ha as [->|?]; [|done].
      exfalso. apply (str_lt_irrefl x2). by apply Hx2.
Qed.

Lemma sorted_set_ext (l1 l2 : list string) :
  (∀ x, x ∈ l1 ↔ x ∈ l2) → Py.sorted_set l1 = Py.sorted_set l2.
Proof.
  intros Hel. apply sorted_ext; try apply sorted_set_sorted.
  intros x. by rewrite !elem_of_sorted_set.
Qed.

Lemma elem_of_mem (x : string) (l : list string) :
  Py.mem x l = true ↔ x ∈ l.
Proof.
  unfold Py.mem. rewrite existsb_exists. split.
  - intros (y & Hin & He). apply String.eqb_eq in He. subst y.
    by apply list_elem_of_In.
  - intros Hin. exists x. split; [by apply list_elem_of_In|].
    apply String.eqb_refl.
Qed.

Lemma elem_of_affected_list (t : string) (pool members : list string) :
  t ∈ affected_list pool members ↔ t ∈ pool ∧ t ∈ members.
Proof.
  unfold affected_list.
  rewrite elem_of_sorted_set,
    (list_elem_of_filter (λ t, Py.mem t members = true)), elem_of_mem.
  tauto.
Qed.

Lemma affected_list_ext (pool1 pool2 members : list string) :
  (∀ x, x ∈ pool1 ↔ x ∈ pool2) →
  affected_list pool1 members = affected_list pool2 members.
Proof.
  intros Hel. apply sorted_ext; try apply sorted_set_sorted.
  intros x. rewrite !elem_of_affected_list, Hel. tauto.
Qed.

(** *** The two loops, name by name *)

Lemma Forall2_with_elem_of {A B} (P : A → B → Prop) (l : list A) (k : list B) :
  Forall2 P l k → Forall2 (λ x y, x ∈ l ∧ P x y) l k.
Proof.
  induction 1 as [|x y l k Hxy _ IH]; constructor.
  - split; [apply list_elem_of_here|done].
  - eapply Forall2_impl; [exact IH|]. intros a b [Ha Hab].
    split; [by apply list_elem_of_further|done].
Qed.

Section Loops.

Variable environ : gmap string string.
Variable EncryptedFileStorage_exists : string → bool.
Variable EnvVarStorage_exists : gmap string string → string → bool.
Variable CREDENTIAL_SPECS : list (string * CredentialSpec).

Variable to_cred : gmap string string.
Variable pool : list string.
Variable members : CredentialSpec → list string.
Variable label : string → string.
Hypothesis to_cred_resolves : resolves CREDENTIAL_SPECS to_cred.

Let step := scan_step environ EncryptedFileStorage_exists
    EnvVarStorage_exists CREDENTIAL_SPECS to_cred pool members label.

Let loop := scan environ EncryptedFileStorage_exists
    EnvVarStorage_exists CREDENTIAL_SPECS to_cred pool members label.

Let check_of := loop_check environ EncryptedFileStorage_exists
    EnvVarStorage_exists CREDENTIAL_SPECS pool members label.

(** An iteration passes over a key whose credential is none, empty or
    already checked, and otherwise appends the check of a name that was
    not checked before. *)
Lemma scan_step_fresh (key : string) (checks : list _CredentialCheck)
    (checked : gset string) :
  (step key (checks, checked) = inr (checks, checked)
   ∧ ∀ n, to_cred !! key = Some n → Py.truthy n = true → n ∈ checked)
  ∨ (∃ n c, to_cred !! key = Some n ∧ Py.truthy n = true ∧ (n ∉ checked)
            ∧ check_of n = Some c
            ∧ step key (checks, checked) = inr (checks ++ [c], {[n]} ∪ checked)).
Proof.
  unfold step, scan_step. destruct (to_cred !! key) as [n|] eqn:Hk.
  - destruct (Py.truthy n) eqn:Ht; simpl.
    + destruct (bool_decide (n ∈ checked)) eqn:Hin; simpl.
      * left. split; [done|]. intros ? [= <-] _.
        by apply bool_decide_eq_true in Hin.
      * right. apply bool_decide_eq_false in Hin.
        destruct (to_cred_resolves _ _ Hk) as [spec Hs].
        exists n. eexists. unfold check_of, loop_check, check_credential.
        rewrite Hs. by repeat split.
    + left. split; [done|]. intros ? [= <-]. congruence.
  - left. split; [done|]. intros ?. discriminate.
Qed.

(** A loop appends one check for each name that was not checked before
    and that some key maps to, and none twice. *)
Lemma scan_names (keys : list string) (checks : list _CredentialCheck)
    (checked : gset string) :
  ∃ names new checked',
    loop keys (checks, checked) = inr (checks ++ new, checked')
    ∧ NoDup names
    ∧ (∀ n, n ∈ names ↔
            (n ∉ checked) ∧ Py.truthy n = true
            ∧ ∃ key, key ∈ keys ∧ to_cred !! key = Some n)
    ∧ (∀ n, n ∈ checked' ↔ n ∈ names ∨ n ∈ checked)
    ∧ Forall2 (λ n c, check_of n = Some c) names new.
Proof.
  revert checks checked. induction keys as [|key rest IH]; intros checks checked.
  - exists [], [], checked. rewrite app_nil_r.
    split; [done|]. split; [constructor|]. split; [|split; [|constructor]].
    + intros n. rewrite elem_of_nil. split; [done|].
      intros (_ & _ & k & Hin & _). by apply elem_of_nil in Hin.
    + intros n. rewrite elem_of_nil. tauto.
  - unfold loop in *. cbn [scan]. fold step.
    destruct (scan_step_fresh key checks checked)
      as [[Hstep Hskip]|(n0 & c0 & Hk0 & Ht0 & Hnew0 & Hc0 & Hstep)];
      rewrite Hstep.
    + destruct (IH checks checked) as (names & new & checked' & Hscan & Hnd & Hnames & Hch & Hf).
      exists names, new, checked'.
      split; [done|]. split; [done|]. split; [|by split].
      intros n. rewrite Hnames. split.
      * intros (Hn & Ht & k & Hin & Hk). repeat split; [done..|].
        exists k. split; [by apply list_elem_of_further|done].
      * intros (Hn & Ht & k & Hin & Hk). repeat split; [done..|].
        apply elem_of_cons in Hin as [->|Hin]; [|by exists k].
        exfalso. apply Hn. by apply Hskip.
    + destruct (IH (checks ++ [c0]) ({[n0]} ∪ checked))
        as (names & new & checked' & Hscan & Hnd & Hnames & Hch & Hf).
      exists (n0 :: names), (c0 :: new), checked'.
      split; [by rewrite Hscan, <- app_assoc|].
      split.
      { constructor; [|done]. intros Hin. apply Hnames in Hin as [Hn _].
        apply Hn, elem_of_union. left. by apply elem_of_singleton. }
      split.
      { intros n. rewrite elem_of_cons, Hnames. split.
        - intros [->|(Hn & Ht & k & Hin & Hk)].
          + repeat split; [done..|].
            exists key. split; [apply list_elem_of_here|done].
          + split; [|split; [done|]].
            * intros Hc. apply Hn, elem_of_union. by right.
            * exists k. split; [by apply list_elem_of_further|done].
        - intros (Hn & Ht & k & Hin & Hk).
          destruct (decide (n = n0)) as [?|Hne]; [by left|right].
          split; [|split; [done|]].
          + intros Hc. apply elem_of_union in Hc as [Hc|Hc]; [|done].
            by apply elem_of_singleton in Hc.
          + apply elem_of_cons in Hin as [->|Hin]; [congruence|by exists k]. }
      split.
      { intros n. rewrite Hch, elem_of_cons, elem_of_union, elem_of_singleton.
        tauto. }
      by constructor.
Qed.

End Loops.

(** *** The checks of a node list *)

Lemma Forall2_map_Some {A B} (f : A → option B) (l : list A) (k : list B) :
  Forall2 (λ x y, f x = Some y) l k → map Some k = map f l.
Proof. induction 1; simpl; congruence. Qed.

Lemma specs_getitem_unique (specs : list (string * CredentialSpec))
    (cred_name : string) (spec : CredentialSpec) :
  NoDup (map fst specs) → (cred_name, spec) ∈ specs →
  specs_getitem specs cred_name = Some spec.
Proof.
  induction specs as [|[n s] t IH]; intros Hnd Hin; simpl.
  - by apply elem_of_nil in Hin.
  - simpl in Hnd. apply NoDup_cons in Hnd as [Hn Hnd].
    apply elem_of_cons in Hin as [[= <- <-]|Hin].
    + by rewrite String.eqb_refl.
    + destruct (String.eqb n cred_name) eqn:He; [|by apply IH].
      apply String.eqb_eq in He. subst n. exfalso. apply Hn.
      apply list_elem_of_In, in_map_iff. exists (cred_name, spec).
      split; [done|by apply list_elem_of_In].
Qed.

Lemma specs_getitem_Some (specs : list (string * CredentialSpec))
    (cred_name : string) (spec : CredentialSpec) :
  specs_getitem specs cred_name = Some spec → (cred_name, spec) ∈ specs.
Proof.
  induction specs as [|[n s] t IH]; simpl; [discriminate|].
  destruct (String.eqb n cred_name) eqn:He.
  - apply String.eqb_eq in He. intros [= ->]. subst n. apply list_elem_of_here.
  - intros H. by apply list_elem_of_further, IH.
Qed.

(** What a reverse mapping says about the table it is built from. *)
Lemma reverse_mapping_listed (specs : list (string * CredentialSpec))
    (members : CredentialSpec → list string) (m cred_name : string) :
  dict_of (flat_map (λ '(name, spec), map (λ m, (m, name)) (members spec)) specs)
    !! m = Some cred_name →
  ∃ spec, (cred_name, spec) ∈ specs ∧ m ∈ members spec.
Proof.
  intros H. apply dict_of_lookup in H.
  apply list_elem_of_In, in_flat_map in H as [[n s] [Hin Hm]].
  apply in_map_iff in Hm as [m' [Heq Hm]]. injection Heq as -> ->.
  exists s. split; by apply list_elem_of_In.
Qed.

Section Expected.

Variable environ : gmap string string.
Variable EncryptedFileStorage_exists : string → bool.
Variable EnvVarStorage_exists : gmap string string → string → bool.
Variable CREDENTIAL_SPECS : list (string * CredentialSpec).

Let expected := expected_check environ EncryptedFileStorage_exists
    EnvVarStorage_exists CREDENTIAL_SPECS.

Let checks_of := collect_checks environ EncryptedFileStorage_exists
    EnvVarStorage_exists CREDENTIAL_SPECS.

Lemma required_by_tool_true (nodes : list NodeSpec) (n : string) :
  required_by_tool CREDENTIAL_SPECS nodes n = true
  ↔ ∃ tool, tool ∈ required_tools nodes
            ∧ tool_to_cred CREDENTIAL_SPECS !! tool = Some n.
Proof.
  unfold required_by_tool. rewrite existsb_exists. split.
  - intros (t & Hin & Hb). exists t.
    split; [by apply list_elem_of_In|by apply bool_decide_eq_true in Hb].
  - intros (t & Hin & Hk). exists t.
    split; [by apply list_elem_of_In|by apply bool_decide_eq_true].
Qed.

(** The checks are those of the required credentials, one each: the ones
    some tool needs first, then the ones only a node type needs. *)
Lemma collect_checks_expected (nodes : list NodeSpec) :
  ∃ names checks,
    checks_of nodes = inr checks
    ∧ NoDup names
    ∧ (∀ n, n ∈ names ↔ required CREDENTIAL_SPECS nodes n)
    ∧ Forall2 (λ n c, expected nodes n = Some c) names checks.
Proof.
  unfold checks_of, collect_checks.
  destruct (scan_names environ EncryptedFileStorage_exists EnvVarStorage_exists
              CREDENTIAL_SPECS (tool_to_cred CREDENTIAL_SPECS)
              (required_tools nodes) spec_tools (λ a, a)
              (tool_to_cred_resolves CREDENTIAL_SPECS)
              (Py.sorted_set (required_tools nodes)) [] ∅)
    as (names1 & new1 & checked1 & Hs1 & Hnd1 & Hn1 & Hc1 & Hf1).
  rewrite Hs1. cbn [app].
  destruct (scan_names environ EncryptedFileStorage_exists EnvVarStorage_exists
              CREDENTIAL_SPECS (node_type_to_cred CREDENTIAL_SPECS)
              (node_types nodes) spec_node_types (λ a, a +:+ " nodes")
              (node_type_to_cred_resolves CREDENTIAL_SPECS)
              (Py.sorted_set (node_types nodes)) new1 checked1)
    as (names2 & new2 & checked2 & Hs2 & Hnd2 & Hn2 & Hc2 & Hf2).
  rewrite Hs2.
  assert (Htool : ∀ n, n ∈ names1 ↔
            Py.truthy n = true
            ∧ ∃ tool, tool ∈ required_tools nodes
                      ∧ tool_to_cred CREDENTIAL_SPECS !! tool = Some n).
  { intros n. rewrite Hn1. split.
    - intros (_ & Ht & k & Hin & Hk). split; [done|]. exists k.
      split; [by apply elem_of_sorted_set|done].
    - intros (Ht & k & Hin & Hk). split; [apply not_elem_of_empty|].
      split; [done|]. exists k. split; [by apply elem_of_sorted_set|done]. }
  assert (Hin1 : ∀ n, n ∈ checked1 ↔ n ∈ names1).
  { intros n. rewrite Hc1. split; [|by left].
    intros [?|Hemp]; [done|]. by apply elem_of_empty in Hemp. }
  exists (names1 ++ names2), (new1 ++ new2). split; [done|]. split; [|split].
  - apply NoDup_app. split; [done|]. split; [|done].
    intros n Ha Hb. apply Hn2 in Hb as [Hb _]. by apply Hb, Hin1.
  - intros n. rewrite elem_of_app, Htool, Hn2, Hin1. unfold required. split.
    + intros [[Ht Hk]|(_ & Ht & k & Hin & Hk)]; (split; [done|]).
      * by left.
      * right. exists k. split; [by apply elem_of_sorted_set|done].
    + intros [Ht [Hk|(k & Hin & Hk)]]; [by left|].
      destruct (decide (n ∈ names1)) as [Hy|Hno].
      * left. by apply Htool.
      * right. split; [done|]. split; [done|]. exists k.
        split; [by apply elem_of_sorted_set|done].
  - apply Forall2_app.
    + eapply Forall2_impl; [exact (Forall2_with_elem_of _ _ _ Hf1)|].
      intros n c [Hin Hc]. simpl in Hc.
      apply Htool in Hin as [_ Hk]. apply required_by_tool_true in Hk.
      unfold expected, expected_check, used_by_of. rewrite Hk. exact Hc.
    + eapply Forall2_impl; [exact (Forall2_with_elem_of _ _ _ Hf2)|].
      intros n c [Hin Hc]. simpl in Hc.
      apply Hn2 in Hin as (Hno & Ht & _).
      unfold expected, expected_check, used_by_of.
      destruct (required_by_tool CREDENTIAL_SPECS nodes n) eqn:Hk; [|exact Hc].
      exfalso. apply Hno, Hin1, Htool. split; [done|].
      by apply required_by_tool_true.
Qed.

End Expected.

(** X4.  The preflight makes exactly one check for each required
    credential: the lookups of the table never fail, the checked names
    have no duplicates and are the required ones, and each check reports
    the tools that need the credential or, only when no tool does, the node
    types that need it. *)
Theorem one_check_per_required_credential
    (environ : gmap string string)
    (EncryptedFileStorage_exists : string → bool)
    (EnvVarStorage_exists : gmap string string → string → bool)
    (CREDENTIAL_SPECS : list (string * CredentialSpec))
    (nodes : list NodeSpec) :
  ∃ names checks,
    collect_checks environ EncryptedFileStorage_exists EnvVarStorage_exists
      CREDENTIAL_SPECS nodes = inr checks
    ∧ NoDup names
    ∧ (∀ n, n ∈ names ↔ required CREDENTIAL_SPECS nodes n)
    ∧ length checks = length names
    ∧ map Some checks
      = map (expected_check environ EncryptedFileStorage_exists
               EnvVarStorage_exists CREDENTIAL_SPECS nodes) names.
Proof.
  destruct (collect_checks_expected environ EncryptedFileStorage_exists
              EnvVarStorage_exists CREDENTIAL_SPECS nodes)
    as (names & checks & Hc & Hnd & Hreq & Hf).
  exists names, checks.
  split; [done|]. split; [done|]. split; [done|]. split.
  - symmetry. by eapply Forall2_length.
  - by apply Forall2_map_Some.
Qed.

(** X5.  The list behind a check's "used by" text is strictly increasing
    and holds exactly the members of the pool (the required tools, or the
    node types) that the credential's specification lists. *)
Theorem affected_list_sorted_members (pool members : list string) :
  StronglySorted Py.str_lt (affected_list pool members)
  ∧ ∀ t, t ∈ affected_list pool members ↔ t ∈ pool ∧ t ∈ members.
Proof.
  split; [apply sorted_set_sorted|].
  intros t. apply elem_of_affected_list.
Qed.

(** X6.  When the keys of the table are distinct, as those of a dictionary
    are, the tool (or node type) that makes a credential required is among
    the ones its check is reported to be used by. *)
Theorem used_by_names_the_requirer
    (CREDENTIAL_SPECS : list (string * CredentialSpec))
    (nodes : list NodeSpec) (cred_name : string) (spec : CredentialSpec)
    (Hkeys : NoDup (map fst CREDENTIAL_SPECS))
    (Hspec : specs_getitem CREDENTIAL_SPECS cred_name = Some spec) :
  (∀ tool, tool ∈ required_tools nodes →
           tool_to_cred CREDENTIAL_SPECS !! tool = Some cred_name →
           tool ∈ affected_list (required_tools nodes) (spec_tools spec))
  ∧ (∀ nt, nt ∈ node_types nodes →
           node_type_to_cred CREDENTIAL_SPECS !! nt = Some cred_name →
           nt ∈ affected_list (node_types nodes) (spec_node_types spec)).
Proof.
  split; intros m Hin Hk; apply elem_of_affected_list; (split; [done|]).
  - apply (reverse_mapping_listed _ spec_tools) in Hk as (s & Hs & Hm).
    apply (specs_getitem_unique _ _ _ Hkeys) in Hs. congruence.
  - apply (reverse_mapping_listed _ spec_node_types) in Hk as (s & Hs & Hm).
    apply (specs_getitem_unique _ _ _ Hkeys) in Hs. congruence.
Qed.

Lemma used_by_names_the_requirer_witness :
  "web_search" ∈ affected_list (required_tools example_nodes)
                   ["web_search"; "news_search"]
  ∧ "llm_tool_use" ∈ affected_list (node_types example_nodes)
                       ["llm_generate"; "llm_tool_use"].
Proof.
  split.
  - refine (proj1 (used_by_names_the_requirer example_specs example_nodes
                     "brave_search" _ _ eq_refl) "web_search" _ eq_refl).
    + apply (bool_decide_unpack _). vm_compute. reflexivity.
    + apply list_elem_of_here.
  - refine (proj2 (used_by_names_the_requirer example_specs example_nodes
                     "anthropic" _ _ eq_refl) "llm_tool_use" _ eq_refl).
    + apply (bool_decide_unpack _). vm_compute. reflexivity.
    + apply list_elem_of_here.
Defined.

(** *** What a call prints and raises *)

Lemma Forall2_elem_of_left {A B} (P : A → B → Prop) (l : list A) (k : list B)
    (x : A) :
  Forall2 P l k → x ∈ l → ∃ y, y ∈ k ∧ P x y.
Proof.
  induction 1 as [|a b l k Hab _ IH]; intros Hin.
  - by apply elem_of_nil in Hin.
  - apply elem_of_cons in Hin as [->|Hin].
    + exists b. split; [apply list_elem_of_here|done].
    + destruct (IH Hin) as (y & Hy & Hp). exists y.
      split; [by apply list_elem_of_further|done].
Qed.

Lemma flat_map_block {A B} (f : A → list B) (x : A) (l : list A) :
  x ∈ l → ∃ before after, flat_map f l = before ++ f x ++ after.
Proof.
  intros Hin. apply list_elem_of_split in Hin as (l1 & l2 & ->).
  exists (flat_map f l1), (flat_map f l2). by rewrite flat_map_app.
Qed.

Lemma append_empty_r (s : string) : s +:+ "" = s.
Proof.
  induction s as [|a s IH]; [done|].
  change (String a (s +:+ "") = String a s). by rewrite IH.
Qed.

Section Outcome.

Variable environ : gmap string string.
Variable EncryptedFileStorage_exists : string → bool.
Variable EnvVarStorage_exists : gmap string string → string → bool.
Variable CREDENTIAL_SPECS : list (string * CredentialSpec).

Let expected := expected_check environ EncryptedFileStorage_exists
    EnvVarStorage_exists CREDENTIAL_SPECS.

Let checks_of := collect_checks environ EncryptedFileStorage_exists
    EnvVarStorage_exists CREDENTIAL_SPECS.

Let available := store_is_available environ EncryptedFileStorage_exists
    EnvVarStorage_exists CREDENTIAL_SPECS.

Let validate := validate_agent_credentials environ EncryptedFileStorage_exists
    EnvVarStorage_exists (Some CREDENTIAL_SPECS).

Lemma expected_check_available (nodes : list NodeSpec) (n : string)
    (c : _CredentialCheck) :
  expected nodes n = Some c →
  ∃ spec, specs_getitem CREDENTIAL_SPECS n = Some spec
          ∧ c_available c = available (cred_id_of n spec)
          ∧ c_env_var c = env_var spec
          ∧ c_help_url c = help_url spec
          ∧ c_used_by c = used_by_of CREDENTIAL_SPECS nodes n spec.
Proof.
  unfold expected, expected_check.
  destruct (specs_getitem CREDENTIAL_SPECS n) as [spec|]; [|discriminate].
  intros [= <-]. by exists spec.
Qed.

(** The check of a required credential is among the checks. *)
Lemma expected_check_listed (nodes : list NodeSpec) (n : string) :
  required CREDENTIAL_SPECS nodes n →
  ∃ checks c, checks_of nodes = inr checks ∧ c ∈ checks
              ∧ expected nodes n = Some c.
Proof.
  intros Hreq.
  destruct (collect_checks_expected environ EncryptedFileStorage_exists
              EnvVarStorage_exists CREDENTIAL_SPECS nodes)
    as (names & checks & Hc & _ & Hnames & Hf).
  apply Hnames in Hreq.
  destruct (Forall2_elem_of_left _ _ _ _ Hf Hreq) as (c & Hin & He).
  by exists checks, c.
Qed.

(** There is nothing to check exactly when nothing is required. *)
Lemma checks_nil_iff (nodes : list NodeSpec) (checks : list _CredentialCheck) :
  checks_of nodes = inr checks →
  checks = [] ↔ ∀ n, ¬ required CREDENTIAL_SPECS nodes n.
Proof.
  intros Hchecks.
  destruct (collect_checks_expected environ EncryptedFileStorage_exists
              EnvVarStorage_exists CREDENTIAL_SPECS nodes)
    as (names & checks' & Hc & _ & Hnames & Hf).
  unfold checks_of in *. rewrite Hchecks in Hc. injection Hc as <-. split.
  - intros -> n Hreq. apply Hnames in Hreq.
    apply Forall2_nil_inv_r in Hf. subst names. by apply elem_of_nil in Hreq.
  - intros Hnone. destruct Hf as [|n c names checks' _ _]; [done|].
    exfalso. apply (Hnone n), Hnames, list_elem_of_here.
Qed.

(** The credentials the error is about: the required ones that no store
    has, one entry each. *)
Lemma missing_checks_expected (nodes : list NodeSpec) :
  ∃ names checks,
    checks_of nodes = inr checks
    ∧ NoDup names
    ∧ (∀ n, n ∈ names ↔
            required CREDENTIAL_SPECS nodes n
            ∧ ∃ spec, specs_getitem CREDENTIAL_SPECS n = Some spec
                      ∧ available (cred_id_of n spec) = false)
    ∧ Forall2 (λ n c, expected nodes n = Some c) names (missing_of checks).
Proof.
  destruct (collect_checks_expected environ EncryptedFileStorage_exists
              EnvVarStorage_exists CREDENTIAL_SPECS nodes)
    as (names & checks & Hc & Hnd & Hnames & Hf).
  set (lacks := λ n, match expected nodes n with
                     | Some c => negb (c_available c)
                     | None => false
                     end).
  exists (filter (λ n, lacks n = true) names), checks.
  split; [done|]. split; [by apply NoDup_filter|]. split.
  - intros n. rewrite (list_elem_of_filter (λ n, lacks n = true)), Hnames.
    unfold lacks. split.
    + intros [Hl Hreq]. split; [done|].
      destruct (expected nodes n) as [c|] eqn:He; [|discriminate].
      apply expected_check_available in He as (spec & Hs & Hav & _).
      exists spec. split; [done|]. rewrite <- Hav. by apply negb_true_iff.
    + intros [Hreq (spec & Hs & Hav)]. split; [|done].
      destruct (expected_check_listed nodes n Hreq) as (? & c & _ & _ & He).
      rewrite He. apply expected_check_available in He as (spec' & Hs' & Hav' & _).
      assert (spec' = spec) as -> by congruence.
      rewrite Hav', Hav. reflexivity.
  - unfold missing_of.
    apply (Forall2_filter _ (λ n, lacks n = true) (λ c, c_available c = false));
      [|done].
    intros n c He. unfold lacks. simpl in He. rewrite He.
    by rewrite negb_true_iff.
Qed.

End Outcome.

(** X7.  A call prints nothing exactly when it is quiet or the node list
    requires no credential. *)
Theorem summary_printed_iff
    (environ : gmap string string)
    (EncryptedFileStorage_exists : string → bool)
    (EnvVarStorage_exists : gmap string string → string → bool)
    (CREDENTIAL_SPECS : list (string * CredentialSpec))
    (nodes : list NodeSpec) (quiet : bool) :
  stdout (validate_agent_credentials environ EncryptedFileStorage_exists
            EnvVarStorage_exists (Some CREDENTIAL_SPECS) nodes quiet) = []
  ↔ quiet = true ∨ ∀ n, ¬ required CREDENTIAL_SPECS nodes n.
Proof.
  destruct (collect_checks_expected environ EncryptedFileStorage_exists
              EnvVarStorage_exists CREDENTIAL_SPECS nodes)
    as (names & checks & Hc & _).
  rewrite (validate_stdout _ _ _ _ _ _ _ Hc).
  rewrite <- (checks_nil_iff _ _ _ _ _ _ Hc).
  unfold summary. destruct checks as [|c rest]; [tauto|].
  destruct quiet; simpl.
  - split; [by left|done].
  - split; [discriminate|]. intros [?|?]; discriminate.
Qed.

(** X8.  The error of a call is about exactly the required credentials
    that no store has: its message is built from one entry per such
    credential, none twice, each the check of that credential, and there
    is no error when there is none. *)
Theorem error_lists_exactly_the_missing
    (environ : gmap string string)
    (EncryptedFileStorage_exists : string → bool)
    (EnvVarStorage_exists : gmap string string → string → bool)
    (CREDENTIAL_SPECS : list (string * CredentialSpec))
    (nodes : list NodeSpec) (quiet : bool) :
  ∃ names missing,
    NoDup names
    ∧ (∀ n, n ∈ names ↔
            ∃ spec, missing_credential environ EncryptedFileStorage_exists
                      EnvVarStorage_exists (Some CREDENTIAL_SPECS) nodes n spec)
    ∧ map Some missing
      = map (expected_check environ EncryptedFileStorage_exists
               EnvVarStorage_exists CREDENTIAL_SPECS nodes) names
    ∧ raised (validate_agent_credentials environ EncryptedFileStorage_exists
                EnvVarStorage_exists (Some CREDENTIAL_SPECS) nodes quiet)
      = match missing with
        | [] => None
        | _ :: _ => Some (CredentialError (Py.join NL (error_lines missing)))
        end.
Proof.
  destruct (missing_checks_expected environ EncryptedFileStorage_exists
              EnvVarStorage_exists CREDENTIAL_SPECS nodes)
    as (names & checks & Hc & Hnd & Hnames & Hf).
  exists names, (missing_of checks).
  split; [done|]. split; [|split].
  - intros n. rewrite Hnames. unfold missing_credential. split.
    + intros (Hreq & spec & Hs & Hav). exists spec, CREDENTIAL_SPECS.
      split; [done|]. split; [done|]. split; [done|].
      by apply store_is_available_false.
    + intros (spec & specs & [= <-] & Hreq & Hs & Hun). split; [done|].
      exists spec. split; [done|]. by apply store_is_available_false.
  - by apply Forall2_map_Some.
  - apply (validate_raised _ _ _ _ _ _ _ Hc).
Qed.

(** X9.  The summary of a call that is not quiet has, for each required
    credential, a block of lines of its own: the status literal of an
    available credential, the source and the users of a credential that is
    available; the status literal of a missing one, "(MISSING)" and the
    users of one that is not.  The status literals are the bytes of the
    source file, and the users are the ones the check reports. *)
Theorem summary_block_of_required_credential
    (environ : gmap string string)
    (EncryptedFileStorage_exists : string → bool)
    (EnvVarStorage_exists : gmap string string → string → bool)
    (CREDENTIAL_SPECS : list (string * CredentialSpec))
    (nodes : list NodeSpec) (cred_name : string) (spec : CredentialSpec)
    (Hreq : required CREDENTIAL_SPECS nodes cred_name)
    (Hspec : specs_getitem CREDENTIAL_SPECS cred_name = Some spec) :
  let cred_id := cred_id_of cred_name spec in
  let used_by := used_by_of CREDENTIAL_SPECS nodes cred_name spec in
  let block :=
    if store_is_available environ EncryptedFileStorage_exists
         EnvVarStorage_exists CREDENTIAL_SPECS cred_id
    then ["  " +:+ CHECK_MARK +:+ " " +:+ env_var spec;
          "      Source: " +:+ get_source environ EncryptedFileStorage_exists
                               EnvVarStorage_exists CREDENTIAL_SPECS cred_id;
          "      Used by: " +:+ used_by]
    else ["  " +:+ BALLOT_X +:+ " " +:+ env_var spec +:+ " (MISSING)";
          "      Required by: " +:+ used_by] in
  ∃ before after,
    stdout (validate_agent_credentials environ EncryptedFileStorage_exists
              EnvVarStorage_exists (Some CREDENTIAL_SPECS) nodes false)
    = before ++ block ++ after.
Proof.
  intros cred_id used_by block.
  destruct (expected_check_listed environ EncryptedFileStorage_exists
              EnvVarStorage_exists CREDENTIAL_SPECS nodes cred_name Hreq)
    as (checks & c & Hc & Hin & He).
  rewrite (validate_stdout _ _ _ _ _ _ _ Hc).
  assert (Hblock : summary_entry c = block).
  { unfold expected_check in He. rewrite Hspec in He. injection He as <-.
    subst block used_by cred_id.
    unfold summary_entry, check_credential_with, cred_id_of.
    cbn [c_available c_source c_used_by c_env_var].
    destruct (store_is_available environ EncryptedFileStorage_exists
                EnvVarStorage_exists CREDENTIAL_SPECS
                (Py.or_else (credential_id spec) cred_name)).
    - by rewrite append_empty_r.
    - reflexivity. }
  destruct (flat_map_block summary_entry c checks Hin) as (l1 & l2 & Hsplit).
  unfold summary. destruct checks as [|c0 rest]; [by apply elem_of_nil in Hin|].
  rewrite Hsplit, Hblock.
  eexists (_ :: _ :: l1), (l2 ++ [_]). simpl. by rewrite <- !app_assoc.
Qed.

Lemma summary_block_of_required_credential_witness :
  ∃ before after,
    stdout (validate_agent_credentials {[ Bootstrap.HIVE_CREDENTIAL_KEY := "k" ]}
              (String.eqb "anthropic_key") (env_store_with [])
              (Some example_specs) example_nodes false)
    = before
      ++ ["  " +:+ byte_str [195; 162; 197; 147; 226; 128; 156]
               +:+ " ANTHROPIC_API_KEY";
          "      Source: encrypted store";
          "      Used by: llm_tool_use nodes"]
      ++ after.
Proof.
  exact (summary_block_of_required_credential
           {[ Bootstrap.HIVE_CREDENTIAL_KEY := "k" ]}
           (String.eqb "anthropic_key") (env_store_with [])
           example_specs example_nodes "anthropic"
           {| env_var := "ANTHROPIC_API_KEY"; spec_tools := [];
              spec_node_types := ["llm_generate"; "llm_tool_use"];
              credential_id := "anthropic_key"; help_url := "" |}
           example_requires_anthropic eq_refl).
Defined.

(** A call returns normally exactly when every required credential is in
    some store. *)
Lemma validate_passes_iff
    (environ : gmap string string)
    (EncryptedFileStorage_exists : string → bool)
    (EnvVarStorage_exists : gmap string string → string → bool)
    (CREDENTIAL_SPECS : list (string * CredentialSpec))
    (nodes : list NodeSpec) (quiet : bool) :
  raised (validate_agent_credentials environ EncryptedFileStorage_exists
            EnvVarStorage_exists (Some CREDENTIAL_SPECS) nodes quiet) = None
  ↔ ∀ n spec, required CREDENTIAL_SPECS nodes n →
              specs_getitem CREDENTIAL_SPECS n = Some spec →
              store_is_available environ EncryptedFileStorage_exists
                EnvVarStorage_exists CREDENTIAL_SPECS (cred_id_of n spec) = true.
Proof.
  destruct (missing_checks_expected environ EncryptedFileStorage_exists
              EnvVarStorage_exists CREDENTIAL_SPECS nodes)
    as (names & checks & Hc & _ & Hnames & Hf).
  rewrite (validate_raised _ _ _ _ _ _ _ Hc). split.
  - intros Hnone n spec Hreq Hs.
    destruct (missing_of checks); [|discriminate].
    apply Forall2_nil_inv_r in Hf. subst names.
    apply not_false_iff_true. intros Hav.
    apply (elem_of_nil n), Hnames. split; [done|]. by exists spec.
  - intros Hall. destruct Hf as [|n c names missing _ _]; [done|].
    exfalso.
    assert (n ∈ n :: names) as Hin by apply list_elem_of_here.
    apply Hnames in Hin as (Hreq & spec & Hs & Hav).
    rewrite (Hall n spec Hreq Hs) in Hav. discriminate.
Qed.

(** X10.  Credentials can only help: if a call returns normally, so does
    the call made when the stores hold at least as much (the key of the
    encrypted store still set, and each store still having what it had). *)
Theorem more_credentials_never_hurt
    (environ environ' : gmap string string)
    (Encrypted Encrypted' : string → bool)
    (EnvVar EnvVar' : gmap string string → string → bool)
    (CREDENTIAL_SPECS : list (string * CredentialSpec))
    (nodes : list NodeSpec) (quiet quiet' : bool)
    (Hkey : encrypted_storage environ = true → encrypted_storage environ' = true)
    (Henc : ∀ cred_id, Encrypted cred_id = true → Encrypted' cred_id = true)
    (Henv : ∀ cred_id, EnvVar (env_mapping CREDENTIAL_SPECS) cred_id = true →
                       EnvVar' (env_mapping CREDENTIAL_SPECS) cred_id = true)
    (Hpass : raised (validate_agent_credentials environ Encrypted EnvVar
                       (Some CREDENTIAL_SPECS) nodes quiet) = None) :
  raised (validate_agent_credentials environ' Encrypted' EnvVar'
            (Some CREDENTIAL_SPECS) nodes quiet') = None.
Proof.
  apply validate_passes_iff. intros n spec Hreq Hs.
  pose proof (proj1 (validate_passes_iff _ _ _ _ _ _) Hpass n spec Hreq Hs)
    as Hav. clear Hpass. rename Hav into Hpass.
  unfold store_is_available, env_storage_exists in *.
  apply orb_true_iff in Hpass as [Ha|Hb]; apply orb_true_iff.
  - apply andb_true_iff in Ha as [Hk He]. left. apply andb_true_iff.
    split; [by apply Hkey|by apply Henc].
  - right. by apply Henv.
Qed.

Lemma more_credentials_never_hurt_witness :
  raised (validate_agent_credentials {[ Bootstrap.HIVE_CREDENTIAL_KEY := "k" ]}
            (String.eqb "anthropic_key")
            (env_store_with ["brave_search"; "anthropic_key"])
            (Some example_specs) example_nodes false) = None.
Proof.
  apply (more_credentials_never_hurt ∅ _ (λ _, false) _
           (env_store_with ["brave_search"; "anthropic_key"]) _ _ _ true).
  - vm_compute. discriminate.
  - discriminate.
  - intros cred_id H. exact H.
  - vm_compute. reflexivity.
Defined.

(** *** Independence of the order of the nodes *)

Lemma scan_pool_ext
    (environ : gmap string string)
    (EncryptedFileStorage_exists : string → bool)
    (EnvVarStorage_exists : gmap string string → string → bool)
    (CREDENTIAL_SPECS : list (string * CredentialSpec))
    (to_cred : gmap string string) (pool pool' : list string)
    (members : CredentialSpec → list string) (label : string → string)
    (keys : list string) (st : scan_state) :
  (∀ x, x ∈ pool ↔ x ∈ pool') →
  scan environ EncryptedFileStorage_exists EnvVarStorage_exists
    CREDENTIAL_SPECS to_cred pool members label keys st
  = scan environ EncryptedFileStorage_exists EnvVarStorage_exists
      CREDENTIAL_SPECS to_cred pool' members label keys st.
Proof.
  intros Hel. revert st. induction keys as [|key rest IH]; intros st; [done|].
  cbn [scan].
  assert (scan_step environ EncryptedFileStorage_exists EnvVarStorage_exists
            CREDENTIAL_SPECS to_cred pool members label key st
          = scan_step environ EncryptedFileStorage_exists EnvVarStorage_exists
              CREDENTIAL_SPECS to_cred pool' members label key st) as ->.
  { unfold scan_step. destruct st as [checks checked].
    destruct (to_cred !! key) as [n|]; [|done].
    destruct (Py.truthy n && negb (bool_decide (n ∈ checked))); [|done].
    destruct (specs_getitem CREDENTIAL_SPECS n) as [spec|]; [|done].
    change (Py.sorted_set (filter (λ t, Py.mem t (members spec) = true) pool))
      with (affected_list pool (members spec)).
    change (Py.sorted_set (filter (λ t, Py.mem t (members spec) = true) pool'))
      with (affected_list pool' (members spec)).
    by rewrite (affected_list_ext pool pool'). }
  destruct (scan_step environ EncryptedFileStorage_exists EnvVarStorage_exists
              CREDENTIAL_SPECS to_cred pool' members label key st); [done|].
  apply IH.
Qed.

(** X11.  The outcome of a call depends on the node list only through the
    set of its tools and the set of its node types: the order of the nodes
    and repetitions among them change neither the summary nor the error. *)
Theorem outcome_depends_on_sets_only
    (environ : gmap string string)
    (EncryptedFileStorage_exists : string → bool)
    (EnvVarStorage_exists : gmap string string → string → bool)
    (aden_tools : option (list (string * CredentialSpec)))
    (nodes nodes' : list NodeSpec) (quiet : bool)
    (Htools : ∀ t, t ∈ required_tools nodes ↔ t ∈ required_tools nodes')
    (Htypes : ∀ t, t ∈ node_types nodes ↔ t ∈ node_types nodes') :
  validate_agent_credentials environ EncryptedFileStorage_exists
    EnvVarStorage_exists aden_tools nodes quiet
  = validate_agent_credentials environ EncryptedFileStorage_exists
      EnvVarStorage_exists aden_tools nodes' quiet.
Proof.
  destruct aden_tools as [specs|]; [|done].
  unfold validate_agent_credentials, validate_agent_credentials_body.
  assert (collect_checks environ EncryptedFileStorage_exists
            EnvVarStorage_exists specs nodes
          = collect_checks environ EncryptedFileStorage_exists
              EnvVarStorage_exists specs nodes') as ->; [|done].
  unfold collect_checks.
  rewrite (sorted_set_ext _ _ Htools), (sorted_set_ext _ _ Htypes).
  rewrite (scan_pool_ext _ _ _ _ _ _ _ _ _ _ _ Htools).
  destruct (scan environ EncryptedFileStorage_exists EnvVarStorage_exists specs
              (tool_to_cred specs) (required_tools nodes') spec_tools
              (λ a, a) (Py.sorted_set (required_tools nodes')) ([], ∅));
    [done|].
  by rewrite (scan_pool_ext _ _ _ _ _ _ _ _ _ _ _ Htypes).
Qed.

Lemma outcome_depends_on_sets_only_witness :
  validate_agent_credentials ∅ (λ _, false) (env_store_with [])
    (Some example_specs) example_nodes false
  = validate_agent_credentials ∅ (λ _, false) (env_store_with [])
      (Some example_specs) (rev example_nodes ++ example_nodes) false.
Proof.
  apply outcome_depends_on_sets_only.
  - intros t. simpl. rewrite !elem_of_cons. tauto.
  - intros t. simpl. rewrite !elem_of_cons. tauto.
Defined.

(** *** The dictionaries built from the table *)

Lemma dict_of_snoc (pairs : list (string * string)) (k v : string) :
  dict_of (pairs ++ [(k, v)]) = <[k := v]> (dict_of pairs).
Proof. unfold dict_of. by rewrite foldl_snoc. Qed.

(** In a comprehension the later pairs take precedence. *)
Lemma dict_of_app (l1 l2 : list (string * string)) (k : string) :
  dict_of (l1 ++ l2) !! k
  = match dict_of l2 !! k with
    | Some v => Some v
    | None => dict_of l1 !! k
    end.
Proof.
  induction l2 as [|[k' v'] l2 IH] using rev_ind.
  - rewrite app_nil_r. change (dict_of []) with (∅ : gmap string string).
    by rewrite lookup_empty.
  - rewrite app_assoc, !dict_of_snoc. destruct (decide (k' = k)) as [->|Hne].
    + by rewrite !(lookup_insert_eq (M:=gmap string)).
    + by rewrite !(lookup_insert_ne (M:=gmap string)).
Qed.

Lemma dict_of_is_Some (pairs : list (string * string)) (k v : string) :
  (k, v) ∈ pairs → is_Some (dict_of pairs !! k).
Proof.
  intros Hin. apply list_elem_of_split in Hin as (l1 & l2 & ->).
  change (l1 ++ (k, v) :: l2) with (l1 ++ [(k, v)] ++ l2).
  rewrite app_assoc, dict_of_app.
  destruct (dict_of l2 !! k); [by eexists|].
  rewrite dict_of_snoc, (lookup_insert_eq (M:=gmap string)). by eexists.
Qed.

Lemma dict_of_None (pairs : list (string * string)) (k : string) :
  dict_of pairs !! k = None ↔ ∀ v, (k, v) ∉ pairs.
Proof.
  split.
  - intros Hnone v Hin. apply dict_of_is_Some in Hin as [? Hs]. congruence.
  - intros Hno. destruct (dict_of pairs !! k) as [v|] eqn:He; [|done].
    apply dict_of_lookup in He. by apply Hno in He.
Qed.

Lemma elem_of_reverse_pairs (specs : list (string * CredentialSpec))
    (members : CredentialSpec → list string) (m n : string) :
  (m, n) ∈ flat_map (λ '(name, spec), map (λ m, (m, name)) (members spec)) specs
  ↔ ∃ spec, (n, spec) ∈ specs ∧ m ∈ members spec.
Proof.
  rewrite list_elem_of_In, in_flat_map. split.
  - intros ([n' s] & Hin & Hm). apply in_map_iff in Hm as (m' & [= -> ->] & Hm).
    exists s. split; by apply list_elem_of_In.
  - intros (s & Hin & Hm). exists (n, s). split; [by apply list_elem_of_In|].
    apply in_map_iff. exists m. split; [done|by apply list_elem_of_In].
Qed.

Lemma reverse_mapping_None (specs : list (string * CredentialSpec))
    (members : CredentialSpec → list string) (m : string) :
  dict_of (flat_map (λ '(name, spec), map (λ m, (m, name)) (members spec)) specs)
    !! m = None
  ↔ ∀ n spec, (n, spec) ∈ specs → m ∉ members spec.
Proof.
  rewrite dict_of_None. split.
  - intros Hno n spec Hin Hm. apply (Hno n), elem_of_reverse_pairs. by exists spec.
  - intros Hno n Hin. apply elem_of_reverse_pairs in Hin as (spec & Hin & Hm).
    by apply (Hno n spec).
Qed.

Lemma reverse_mapping_last (before after : list (string * CredentialSpec))
    (members : CredentialSpec → list string) (n : string)
    (spec : CredentialSpec) (m : string) :
  m ∈ members spec →
  (∀ n' spec', (n', spec') ∈ after → m ∉ members spec') →
  dict_of (flat_map (λ '(name, spec), map (λ m, (m, name)) (members spec))
             (before ++ (n, spec) :: after)) !! m = Some n.
Proof.
  intros Hm Hafter.
  change (before ++ (n, spec) :: after) with (before ++ [(n, spec)] ++ after).
  rewrite app_assoc, flat_map_app, dict_of_app.
  rewrite (proj2 (reverse_mapping_None after members m) Hafter).
  rewrite flat_map_app, dict_of_app. cbn [flat_map]. rewrite app_nil_r.
  assert (is_Some (dict_of (map (λ m, (m, n)) (members spec)) !! m)) as [v Hv].
  { apply (dict_of_is_Some _ m n), list_elem_of_In, in_map_iff.
    exists m. split; [done|by apply list_elem_of_In]. }
  rewrite Hv. apply dict_of_lookup, list_elem_of_In, in_map_iff in Hv
    as (m' & [= -> ->] & _).
  reflexivity.
Qed.

(** X12.  The reverse mappings are read off the table: a tool (a node
    type) is mapped exactly when some entry lists it, and then to the name
    of an entry that lists it. *)
Theorem reverse_mappings_follow_the_table
    (CREDENTIAL_SPECS : list (string * CredentialSpec)) (key : string) :
  (tool_to_cred CREDENTIAL_SPECS !! key = None
   ↔ ∀ n spec, (n, spec) ∈ CREDENTIAL_SPECS → key ∉ spec_tools spec)
  ∧ (∀ n, tool_to_cred CREDENTIAL_SPECS !! key = Some n →
          ∃ spec, (n, spec) ∈ CREDENTIAL_SPECS ∧ key ∈ spec_tools spec)
  ∧ (node_type_to_cred CREDENTIAL_SPECS !! key = None
     ↔ ∀ n spec, (n, spec) ∈ CREDENTIAL_SPECS → key ∉ spec_node_types spec)
  ∧ (∀ n, node_type_to_cred CREDENTIAL_SPECS !! key = Some n →
          ∃ spec, (n, spec) ∈ CREDENTIAL_SPECS ∧ key ∈ spec_node_types spec).
Proof.
  split; [apply (reverse_mapping_None _ spec_tools)|].
  split; [intros n; apply (reverse_mapping_listed _ spec_tools)|].
  split; [apply (reverse_mapping_None _ spec_node_types)|].
  intros n; apply (reverse_mapping_listed _ spec_node_types).
Qed.

(** X13.  When several entries of the table list the same tool (or node
    type), the reverse mapping sends it to the last of them. *)
Theorem later_entry_wins
    (before after : list (string * CredentialSpec)) (n : string)
    (spec : CredentialSpec) (key : string) :
  (key ∈ spec_tools spec →
   (∀ n' spec', (n', spec') ∈ after → key ∉ spec_tools spec') →
   tool_to_cred (before ++ (n, spec) :: after) !! key = Some n)
  ∧ (key ∈ spec_node_types spec →
     (∀ n' spec', (n', spec') ∈ after → key ∉ spec_node_types spec') →
     node_type_to_cred (before ++ (n, spec) :: after) !! key = Some n).
Proof.
  split.
  - apply (reverse_mapping_last before after spec_tools).
  - apply (reverse_mapping_last before after spec_node_types).
Qed.

Lemma later_entry_wins_witness :
  tool_to_cred
    ([("serper", {| env_var := "SERPER_API_KEY"; spec_tools := ["web_search"];
                    spec_node_types := []; credential_id := "";
                    help_url := "" |})]
     ++ example_specs) !! "web_search" = Some "brave_search".
Proof.
  refine (proj1 (later_entry_wins [_] [_] "brave_search" _ "web_search") _ _).
  - apply list_elem_of_here.
  - intros n' spec' Hin. apply list_elem_of_singleton in Hin.
    injection Hin as -> ->. apply not_elem_of_nil.
Defined.

(** X14.  The environment-variable store is built with a mapping that has
    the credential identifier of every entry of the table, and that sends
    an identifier only to the variable of an entry with that identifier. *)
Theorem env_mapping_covers_the_table
    (CREDENTIAL_SPECS : list (string * CredentialSpec)) :
  (∀ n spec, (n, spec) ∈ CREDENTIAL_SPECS →
             is_Some (env_mapping CREDENTIAL_SPECS !! cred_id_of n spec))
  ∧ (∀ cred_id v, env_mapping CREDENTIAL_SPECS !! cred_id = Some v →
       ∃ n spec, (n, spec) ∈ CREDENTIAL_SPECS
                 ∧ cred_id = cred_id_of n spec ∧ v = env_var spec).
Proof.
  unfold env_mapping, cred_id_of. split.
  - intros n spec Hin. apply (dict_of_is_Some _ _ (env_var spec)).
    apply list_elem_of_In, in_map_iff. exists (n, spec).
    split; [done|by apply list_elem_of_In].
  - intros cred_id v Hk.
    apply dict_of_lookup, list_elem_of_In, in_map_iff in Hk
      as ([n spec] & [= <- <-] & Hin).
    exists n, spec. split; [by apply list_elem_of_In|done].
Qed.

(** *** Nodes that need no credential *)

Lemma filter_sorted (P : string → Prop) `{∀ x, Decision (P x)} (l : list string) :
  StronglySorted Py.str_lt l → StronglySorted Py.str_lt (filter P l).
Proof.
  induction 1 as [|x l Hs IH Hx]; [constructor|].
  rewrite filter_cons. destruct (decide (P x)); [|done].
  constructor; [done|]. apply Forall_forall. intros y Hy.
  apply list_elem_of_filter in Hy as [_ Hy].
  rewrite Forall_forall in Hx. by apply Hx.
Qed.

Section Ignore.

Variable environ : gmap string string.
Variable EncryptedFileStorage_exists : string → bool.
Variable EnvVarStorage_exists : gmap string string → string → bool.
Variable CREDENTIAL_SPECS : list (string * CredentialSpec).

Variable to_cred : gmap string string.
Variable members : CredentialSpec → list string.
Variable label : string → string.

Let loop := scan environ EncryptedFileStorage_exists
    EnvVarStorage_exists CREDENTIAL_SPECS to_cred.

(** A loop depends on its pool only through the lists of affected
    members. *)
Lemma scan_affected_ext (pool pool' keys : list string) (st : scan_state) :
  (∀ n spec, specs_getitem CREDENTIAL_SPECS n = Some spec →
             affected_list pool (members spec) = affected_list pool' (members spec)) →
  loop pool members label keys st = loop pool' members label keys st.
Proof.
  intros Haff. revert st. induction keys as [|key rest IH]; intros st; [done|].
  unfold loop in *. cbn [scan].
  assert (scan_step environ EncryptedFileStorage_exists EnvVarStorage_exists
            CREDENTIAL_SPECS to_cred pool members label key st
          = scan_step environ EncryptedFileStorage_exists EnvVarStorage_exists
              CREDENTIAL_SPECS to_cred pool' members label key st) as ->.
  { unfold scan_step. destruct st as [checks checked].
    destruct (to_cred !! key) as [n|]; [|done].
    destruct (Py.truthy n && negb (bool_decide (n ∈ checked))); [|done].
    destruct (specs_getitem CREDENTIAL_SPECS n) as [spec|] eqn:Hs; [|done].
    change (Py.sorted_set (filter (λ t, Py.mem t (members spec) = true) pool))
      with (affected_list pool (members spec)).
    change (Py.sorted_set (filter (λ t, Py.mem t (members spec) = true) pool'))
      with (affected_list pool' (members spec)).
    by rewrite (Haff n spec Hs). }
  destruct (scan_step environ EncryptedFileStorage_exists EnvVarStorage_exists
              CREDENTIAL_SPECS to_cred pool' members label key st); [done|].
  apply IH.
Qed.

(** A loop passes over the keys that the reverse mapping does not have. *)
Lemma scan_known_keys (pool keys : list string) (st : scan_state) :
  loop pool members label keys st
  = loop pool members label (filter (λ k, is_Some (to_cred !! k)) keys) st.
Proof.
  revert st. induction keys as [|key rest IH]; intros st; [done|].
  unfold loop in *. destruct (decide (is_Some (to_cred !! key))) as [Hk|Hk].
  - rewrite filter_cons_True by done. cbn [scan].
    destruct (scan_step environ EncryptedFileStorage_exists EnvVarStorage_exists
                CREDENTIAL_SPECS to_cred pool members label key st); [done|].
    apply IH.
  - rewrite filter_cons_False by done. cbn [scan].
    assert (scan_step environ EncryptedFileStorage_exists EnvVarStorage_exists
              CREDENTIAL_SPECS to_cred pool members label key st = inr st) as ->.
    { unfold scan_step. destruct st as [checks checked].
      destruct (to_cred !! key) eqn:He; [|done].
      exfalso. apply Hk. by eexists. }
    apply IH.
Qed.

Hypothesis to_cred_complete :
  ∀ t, to_cred !! t = None →
       ∀ n spec, (n, spec) ∈ CREDENTIAL_SPECS → t ∉ members spec.

(** Members of the pool that the reverse mapping does not have make no
    difference to a loop. *)
Lemma scan_ignores_unknown (pool unknown : list string) (st : scan_state) :
  (∀ t, t ∈ unknown → to_cred !! t = None) →
  loop (pool ++ unknown) members label (Py.sorted_set (pool ++ unknown)) st
  = loop pool members label (Py.sorted_set pool) st.
Proof.
  intros Hun.
  rewrite (scan_affected_ext (pool ++ unknown) pool).
  - rewrite (scan_known_keys pool (Py.sorted_set (pool ++ unknown))).
    rewrite (scan_known_keys pool (Py.sorted_set pool)).
    f_equal. apply sorted_ext; try apply filter_sorted, sorted_set_sorted.
    intros x. rewrite !list_elem_of_filter, !elem_of_sorted_set, elem_of_app.
    split; [|tauto]. intros [Hk [?|Hx]]; [done|].
    rewrite (Hun x Hx) in Hk. by destruct Hk.
  - intros n spec Hs. apply sorted_ext; try apply sorted_set_sorted.
    intros x. rewrite !elem_of_affected_list, elem_of_app.
    split; [|tauto]. intros [[?|Hx] Hm]; [done|].
    exfalso. apply (to_cred_complete x (Hun x Hx) n spec); [|done].
    by apply specs_getitem_Some.
Qed.

End Ignore.

(** X15.  Nodes whose tools and node type need no credential make no
    difference: adding them to the node list changes neither what the
    call prints nor what it raises. *)
Theorem credential_free_nodes_are_ignored
    (environ : gmap string string)
    (EncryptedFileStorage_exists : string → bool)
    (EnvVarStorage_exists : gmap string string → string → bool)
    (CREDENTIAL_SPECS : list (string * CredentialSpec))
    (nodes others : list NodeSpec) (quiet : bool)
    (Htools : ∀ node t, node ∈ others → t ∈ tools node →
                        tool_to_cred CREDENTIAL_SPECS !! t = None)
    (Htypes : ∀ node, node ∈ others →
                      node_type_to_cred CREDENTIAL_SPECS !! node_type node = None) :
  validate_agent_credentials environ EncryptedFileStorage_exists
    EnvVarStorage_exists (Some CREDENTIAL_SPECS) (nodes ++ others) quiet
  = validate_agent_credentials environ EncryptedFileStorage_exists
      EnvVarStorage_exists (Some CREDENTIAL_SPECS) nodes quiet.
Proof.
  unfold validate_agent_credentials, validate_agent_credentials_body.
  assert (collect_checks environ EncryptedFileStorage_exists
            EnvVarStorage_exists CREDENTIAL_SPECS (nodes ++ others)
          = collect_checks environ EncryptedFileStorage_exists
              EnvVarStorage_exists CREDENTIAL_SPECS nodes) as ->; [|done].
  unfold collect_checks, required_tools, node_types.
  rewrite flat_map_app, map_app.
  rewrite (scan_ignores_unknown environ EncryptedFileStorage_exists
             EnvVarStorage_exists CREDENTIAL_SPECS (tool_to_cred CREDENTIAL_SPECS)
             spec_tools (λ a, a)).
  - destruct (scan environ EncryptedFileStorage_exists EnvVarStorage_exists
                CREDENTIAL_SPECS (tool_to_cred CREDENTIAL_SPECS)
                (flat_map tools nodes) spec_tools (λ a, a)
                (Py.sorted_set (flat_map tools nodes)) ([], ∅)) as [e|st];
      [done|].
    rewrite (scan_ignores_unknown environ EncryptedFileStorage_exists
               EnvVarStorage_exists CREDENTIAL_SPECS
               (node_type_to_cred CREDENTIAL_SPECS)
               spec_node_types (λ a, a +:+ " nodes")); [done| |].
    + intros t. apply (reverse_mapping_None _ spec_node_types).
    + intros t Hin. apply list_elem_of_In, in_map_iff in Hin as (node & <- & Hin).
      by apply Htypes, list_elem_of_In.
  - intros t. apply (reverse_mapping_None _ spec_tools).
  - intros t Hin. apply list_elem_of_In, in_flat_map in Hin as (node & Hin & Ht).
    apply (Htools node); by apply list_elem_of_In.
Qed.

Lemma credential_free_nodes_are_ignored_witness :
  validate_agent_credentials ∅ (λ _, false) (env_store_with [])
    (Some example_specs)
    (example_nodes
     ++ [NodeSpec_new "format" "Format" "function" ["format_text"] None [] []])
    false
  = validate_agent_credentials ∅ (λ _, false) (env_store_with [])
      (Some example_specs) example_nodes false.
Proof.
  apply credential_free_nodes_are_ignored.
  - intros node t Hnode Ht. apply list_elem_of_singleton in Hnode. subst node.
    apply list_elem_of_singleton in Ht. subst t. vm_compute. reflexivity.
  - intros node Hnode. apply list_elem_of_singleton in Hnode. subst node.
    vm_compute. reflexivity.
Defined.

End CredentialsMore.

(** ** What a call raises, on the node list and the table alone *)

Module PreflightFacts.
Import Credentials CredentialsFacts CredentialsMore.








End PreflightFacts.

(** ** The nodes of the tests, call by call *)

Module TestsMore.
Import Executor Tests ExecutorFacts.

(** *** Successive calls *)

Lemma serve_flaky (F count : nat) (ctxs : list NodeContext) :
  serve FlakyTestNode_execute
    {| fail_times := F; flaky_attempt_count := count |} ctxs
  = (map (λ k, if (k <=? F)%nat
               then NodeFailure ("Transient error (attempt "
                                 +:+ Py.str_of_nat k +:+ ")")
               else NodeSuccess {[ "result" := "succeeded after "
                                     +:+ Py.str_of_nat k +:+ " attempts" ]})
         (seq (Datatypes.S count) (length ctxs)),
     {| fail_times := F; flaky_attempt_count := count + length ctxs |}).
Proof.
  revert count. induction ctxs as [|ctx rest IH]; intros count.
  - simpl. by rewrite Nat.add_0_r.
  - cbn [serve length seq map]. unfold FlakyTestNode_execute at 1.
    cbn [fail_times flaky_attempt_count]. rewrite Nat.add_1_r.
    destruct (Datatypes.S count <=? F)%nat; rewrite IH;
      by rewrite Nat.add_succ_comm.
Qed.

(** X16.  A fresh [FlakyTestNode] answers its k-th call, whatever the
    context, with the failure "Transient error (attempt k)" as long as k
    is at most [fail_times] (2 when none is given) and with the output
    "succeeded after k attempts" from then on, and it has counted every
    call. *)
Theorem flaky_node_call_by_call (fail_times : option nat)
    (ctxs : list NodeContext) :
  serve FlakyTestNode_execute (FlakyTestNode_init fail_times) ctxs
  = (map (λ k, if (k <=? default 2 fail_times)%nat
               then NodeFailure ("Transient error (attempt "
                                 +:+ Py.str_of_nat k +:+ ")")
               else NodeSuccess {[ "result" := "succeeded after "
                                     +:+ Py.str_of_nat k +:+ " attempts" ]})
         (seq 1 (length ctxs)),
     {| Tests.fail_times := default 2 fail_times;
        flaky_attempt_count := length ctxs |}).
Proof. apply (serve_flaky (default 2 fail_times) 0). Qed.

Lemma serve_always_fails (count : nat) (ctxs : list NodeContext) :
  serve AlwaysFailsNode_execute count ctxs
  = (map (λ k, NodeFailure ("Permanent error (attempt "
                            +:+ Py.str_of_nat k +:+ ")"))
         (seq (Datatypes.S count) (length ctxs)),
     count + length ctxs).
Proof.
  revert count. induction ctxs as [|ctx rest IH]; intros count.
  - simpl. by rewrite Nat.add_0_r.
  - cbn [serve length seq map]. unfold AlwaysFailsNode_execute at 1.
    rewrite Nat.add_1_r, IH. by rewrite Nat.add_succ_comm.
Qed.

(** X17.  A fresh [AlwaysFailsNode] answers its k-th call, whatever the
    context, with the failure "Permanent error (attempt k)", and it has
    counted every call. *)
Theorem always_fails_node_call_by_call (ctxs : list NodeContext) :
  serve AlwaysFailsNode_execute AlwaysFailsNode_init ctxs
  = (map (λ k, NodeFailure ("Permanent error (attempt "
                            +:+ Py.str_of_nat k +:+ ")"))
         (seq 1 (length ctxs)),
     length ctxs).
Proof. apply (serve_always_fails 0). Qed.

(** *** The nodes of the tests under the retry loop *)

Lemma merge_output_lookup_Some (keys : list string)
    (out shared : gmap string string) (k v : string) :
  out !! k = Some v → k ∈ keys ∨ shared !! k = Some v →
  merge_output keys out shared !! k = Some v.
Proof.
  intros Hout. unfold merge_output. revert shared.
  induction keys as [|k' rest IH]; intros shared Hk; simpl.
  - destruct Hk as [Hk|?]; [by apply elem_of_nil in Hk|done].
  - apply IH. destruct (decide (k' = k)) as [->|Hne].
    + right. rewrite Hout. by rewrite (lookup_insert_eq (M:=gmap string)).
    + destruct Hk as [Hk|Hk].
      * apply elem_of_cons in Hk as [?|?]; [congruence|by left].
      * right. destruct (out !! k'); [|done].
        by rewrite (lookup_insert_ne (M:=gmap string)).
Qed.

Section Loop.

Variable spec : NodeSpec.
Variable input : gmap string string.
Variable goal : Goal.

(** The retry loop on a [FlakyTestNode] with enough budget left ends at
    the call numbered [fail_times + 1]. *)
Lemma retry_loop_flaky (F : nat) :
  ∀ (d count retries_left attempt : nat) (trace : list event),
    count + d = F → (d ≤ retries_left)%nat →
    ∃ trace',
      retry_loop spec input goal retries_left attempt
        {| self := {| fail_times := F; flaky_attempt_count := count |};
           execute_attempt := FlakyTestNode_execute |} trace
      = (NodeSuccess {[ "result" := "succeeded after "
                          +:+ Py.str_of_nat (F + 1) +:+ " attempts" ]},
         {| self := {| fail_times := F; flaky_attempt_count := F + 1 |};
            execute_attempt := FlakyTestNode_execute |},
         trace').
Proof.
  induction d as [|d IH]; intros count retries_left attempt trace Hd Hle.
  - assert (count = F) as -> by lia.
    destruct retries_left; cbn [retry_loop]; unfold invoke;
      cbn [self execute_attempt]; unfold FlakyTestNode_execute;
      cbn [fail_times flaky_attempt_count];
      (destruct (Nat.leb_spec (F + 1) F); [lia|]); by eexists.
  - destruct retries_left as [|k]; [lia|].
    cbn [retry_loop]. unfold invoke. cbn [self execute_attempt].
    unfold FlakyTestNode_execute at 1. cbn [fail_times flaky_attempt_count].
    destruct (Nat.leb_spec (count + 1) F); [|lia].
    apply IH; lia.
Qed.

(** The retry loop on an [AlwaysFailsNode] uses the whole budget. *)
Lemma retry_loop_failing :
  ∀ (retries_left count attempt : nat) (trace : list event),
    ∃ trace',
      retry_loop spec input goal retries_left attempt
        {| self := count; execute_attempt := AlwaysFailsNode_execute |} trace
      = (NodeFailure ("Permanent error (attempt "
                      +:+ Py.str_of_nat (count + retries_left + 1) +:+ ")"),
         {| self := count + retries_left + 1;
            execute_attempt := AlwaysFailsNode_execute |},
         trace').
Proof.
  induction retries_left as [|k IH]; intros count attempt trace.
  - cbn [retry_loop]. unfold invoke. cbn [self execute_attempt].
    unfold AlwaysFailsNode_execute. rewrite Nat.add_0_r. by eexists.
  - cbn [retry_loop]. unfold invoke. cbn [self execute_attempt].
    unfold AlwaysFailsNode_execute at 1.
    replace (count + Datatypes.S k + 1) with (count + 1 + k + 1) by lia.
    apply IH.
Qed.

End Loop.

(** X18.  The assertions of the tests that succeed, for every budget: on
    the one-node graph, a [FlakyTestNode] that fails [F] times within the
    node's [max_retries] makes the run succeed, the node object has then
    counted [F + 1] attempts, and the output has "succeeded after F+1
    attempts" under "result" when the node declares that output key. *)
Theorem flaky_run_counts_and_reports (fuel : nat) (spec : NodeSpec)
    (goal : Goal) (initial_state : gmap string string) (F : nat)
    (Hbudget : (F ≤ max_retries spec)%nat)
    (Hinputs : inputs_available spec initial_state)
    (Hkey : "result" ∈ output_keys spec) :
  ∃ r st,
    run_single (Datatypes.S fuel) spec (flaky_node (Some F)) goal initial_state
    = Some (Returned r, st)
    ∧ success r = true
    ∧ output r !! "result"
      = Some ("succeeded after " +:+ Py.str_of_nat (F + 1) +:+ " attempts")
    ∧ self <$> (registry st !! id spec)
      = Some {| fail_times := F; flaky_attempt_count := F + 1 |}.
Proof.
  destruct (build_input_available _ _ Hinputs) as [input Hin].
  rewrite (run_single_unfold fuel spec _ goal initial_state input Hin).
  destruct (retry_loop_flaky spec input goal F F 0 (max_retries spec) 1
              [StartRun goal; SetNode (id spec)]) as [trace' Hloop];
    [lia|done|].
  change (flaky_node (Some F))
    with {| self := {| fail_times := F; flaky_attempt_count := 0 |};
            execute_attempt := FlakyTestNode_execute |}.
  rewrite Hloop.
  eexists _, _. split; [reflexivity|]. cbn [success output registry].
  split; [done|]. split.
  - apply merge_output_lookup_Some; [|by left].
    by rewrite (lookup_singleton_eq (M:=gmap string)).
  - by rewrite (lookup_insert_eq (M:=gmap string)).
Qed.

Lemma flaky_run_counts_and_reports_witness :
  ∃ r st,
    run_single 1 flaky_spec (flaky_node (Some 5)) (test_goal "high") ∅
    = Some (Returned r, st)
    ∧ success r = true
    ∧ output r !! "result" = Some "succeeded after 6 attempts"
    ∧ self <$> (registry st !! "flaky_node")
      = Some {| fail_times := 5; flaky_attempt_count := 6 |}.
Proof.
  apply (flaky_run_counts_and_reports 0 flaky_spec (test_goal "high") ∅ 5).
  - simpl. lia.
  - by apply no_input_keys_available.
  - apply list_elem_of_here.
Defined.

(** X19.  The assertions of the tests that fail, for every budget: on the
    one-node graph, an [AlwaysFailsNode] makes the run fail with the shared
    state untouched, the node object has then counted [max_retries + 1]
    attempts, and the error is "failed after max_retries attempts: "
    followed by the error of the last attempt. *)
Theorem failing_run_counts_and_reports (fuel : nat) (spec : NodeSpec)
    (goal : Goal) (initial_state : gmap string string)
    (Hinputs : inputs_available spec initial_state) :
  ∃ r st,
    run_single (Datatypes.S fuel) spec failing_node goal initial_state
    = Some (Returned r, st)
    ∧ success r = false
    ∧ output r = initial_state
    ∧ error r
      = Some ("failed after " +:+ Py.str_of_nat (max_retries spec)
              +:+ " attempts: Permanent error (attempt "
              +:+ Py.str_of_nat (max_retries spec + 1) +:+ ")")
    ∧ self <$> (registry st !! id spec) = Some (max_retries spec + 1).
Proof.
  destruct (build_input_available _ _ Hinputs) as [input Hin].
  rewrite (run_single_unfold fuel spec _ goal initial_state input Hin).
  destruct (retry_loop_failing spec input goal (max_retries spec) 0 1
              [StartRun goal; SetNode (id spec)]) as [trace' Hloop].
  unfold failing_node, AlwaysFailsNode_init, AlwaysFailsNode. rewrite Hloop.
  eexists _, _. split; [reflexivity|]. cbn [success output error registry].
  split; [done|]. split; [done|]. split; [done|].
  by rewrite (lookup_insert_eq (M:=gmap string)).
Qed.

Lemma failing_run_counts_and_reports_witness :
  ∃ r st,
    run_single 1 fragile_spec failing_node (test_goal "low") ∅
    = Some (Returned r, st)
    ∧ success r = false
    ∧ output r = ∅
    ∧ error r
      = Some "failed after 2 attempts: Permanent error (attempt 3)"
    ∧ self <$> (registry st !! "fragile_node") = Some 3.
Proof.
  apply (failing_run_counts_and_reports 0 fragile_spec (test_goal "low") ∅).
  by apply no_input_keys_available.
Defined.

End TestsMore.

(** ** The bootstrap followed by the preflight *)

Module RunnerMore.
Import Bootstrap Credentials CredentialsFacts CredentialsMore.

(** X20.  The bootstrap unlocks the preflight: when the shell
    configuration supplies the key and the encrypted store has every
    required credential, the preflight made after the bootstrap returns
    normally, whatever the environment was before. *)
Theorem bootstrap_unlocks_preflight
    (shell : shell_config) (env : gmap string string)
    (EncryptedFileStorage_exists : string → bool)
    (EnvVarStorage_exists : gmap string string → string → bool)
    (CREDENTIAL_SPECS : list (string * CredentialSpec))
    (nodes : list NodeSpec) (quiet : bool)
    (Hshell : shell_supplies shell = true)
    (Hstore : ∀ n spec, required CREDENTIAL_SPECS nodes n →
                        specs_getitem CREDENTIAL_SPECS n = Some spec →
                        EncryptedFileStorage_exists (cred_id_of n spec) = true) :
  raised (validate_agent_credentials (ensure_credential_key_env shell env).2
            EncryptedFileStorage_exists EnvVarStorage_exists
            (Some CREDENTIAL_SPECS) nodes quiet) = None.
Proof.
  apply validate_passes_iff. intros n spec Hreq Hs.
  unfold store_is_available, encrypted_storage.
  rewrite BootstrapMore.ensure_key_truthy, Hshell, orb_true_r.
  by rewrite (Hstore n spec Hreq Hs).
Qed.

Lemma bootstrap_unlocks_preflight_witness :
  raised (validate_agent_credentials
            (ensure_credential_key_env shell_with_key ∅).2
            (λ _, true) (env_store_with [])
            (Some example_specs) example_nodes false) = None.
Proof.
  apply bootstrap_unlocks_preflight.
  - reflexivity.
  - intros n spec _ _. reflexivity.
Defined.

End RunnerMore.
